(** * The Prismatic colourspace of colour/models/rgb/prismatic.py

    A shallow embedding of [RGB_to_Prismatic] and [Prismatic_to_RGB] together
    with the numpy operations they are written with.  Arrays are numpy's:
    a shape and the elements in row-major order.  The element type is a
    parameter (numpy's dtype): the functions are run on IEEE binary64 numbers
    (Rocq's primitive floats) and reasoned about on exact rationals extended
    with the IEEE special values [+inf], [-inf] and [nan], so that a division
    by zero is visible in the model while rounding is not. *)

From Stdlib Require Import List Arith ZArith QArith Qcanon Bool Lia Permutation.
From Stdlib Require Import PrimFloat SpecFloat FloatOps.
Import ListNotations.

Set Warnings "-inexact-float".
Local Open Scope nat_scope.

(** ** Python exceptions *)

Inductive exn : Type := ValueError | IndexError.

Inductive result (T : Type) : Type :=
| Ok (x : T)
| Raise (e : exn).

Arguments Ok {T} x.
Arguments Raise {T} e.

Definition bind {T U : Type} (c : result T) (k : T -> result U) : result U :=
  match c with
  | Ok x => k x
  | Raise e => Raise e
  end.

Notation "x <- c ;; k" := (bind c (fun x => k))
  (at level 61, c at next level, right associativity).

Definition raises {T : Type} (c : result T) : Prop := exists e, c = Raise e.

(** ** Scalars: what numpy's inner loops need from a dtype *)

Class Scalar (A : Type) : Type := {
  (** A Python integer literal converted to the dtype. *)
  s_of_Z : Z -> A;
  s_add : A -> A -> A;
  s_sub : A -> A -> A;
  s_mul : A -> A -> A;
  s_div : A -> A -> A;
  (** [x >= y], [x == y] and [isnan(x)] of C. *)
  s_ge : A -> A -> bool;
  s_eq : A -> A -> bool;
  s_isnan : A -> bool
}.

Definition s_zero {A : Type} {SA : Scalar A} : A := s_of_Z 0.
Definition s_one {A : Type} {SA : Scalar A} : A := s_of_Z 1.

(** ** Row-major data *)

(** The first [n] consecutive blocks of [k] elements. *)
Fixpoint chunks {A : Type} (k n : nat) (d : list A) : list (list A) :=
  match n with
  | O => []
  | S n' => firstn k d :: chunks k n' (skipn k d)
  end.

(** Component [j] of every vector. *)
Definition column {A : Type} (j : nat) (rs : list (list A)) : list A :=
  flat_map (fun r => match nth_error r j with Some x => [x] | None => [] end) rs.


(** The [n] vectors whose components are given, one list per component. *)
Fixpoint zip_columns {A : Type} (n : nat) (cols : list (list A)) : list (list A) :=
  match n with
  | O => []
  | S n' => flat_map (fun c => firstn 1 c) cols
            :: zip_columns n' (map (@tl A) cols)
  end.

Fixpoint map2 {A B C : Type} (f : A -> B -> C) (l : list A) (m : list B) : list C :=
  match l, m with
  | x :: l', y :: m' => f x y :: map2 f l' m'
  | _, _ => []
  end.

(** ** numpy arrays *)

Record ndarray (A : Type) : Type := mk_ndarray {
  shape : list nat;
  data : list A
}.

Arguments mk_ndarray {A} shape data.
Arguments shape {A} n.
Arguments data {A} n.

Definition size_of (sh : list nat) : nat := fold_right Nat.mul 1 sh.

(** A well-formed array holds as many elements as its shape says. *)
Definition wf {A : Type} (a : ndarray A) : Prop :=
  length (data a) = size_of (shape a).

(** Leading axes and length of the trailing axis; [None] for a 0-d array. *)
Definition unsnoc (sh : list nat) : option (list nat * nat) :=
  match rev sh with
  | [] => None
  | k :: r => Some (rev r, k)
  end.

Definition trailing {A : Type} (a : ndarray A) : option nat :=
  match unsnoc (shape a) with
  | None => None
  | Some (_, k) => Some k
  end.

(** The vectors along the trailing axis, in batch order. *)
Definition rows {A : Type} (a : ndarray A) : list (list A) :=
  match unsnoc (shape a) with
  | None => []
  | Some (lead, k) => chunks k (size_of lead) (data a)
  end.

(** A single vector: a 1-d array. *)
Definition vector {A : Type} (v : list A) : ndarray A :=
  {| shape := [length v]; data := v |}.

Definition shape_eq_dec : forall s t : list nat, {s = t} + {s <> t} :=
  list_eq_dec Nat.eq_dec.

(** ** The numpy operations the module uses *)

Section Numpy.
Context {A : Type} {SA : Scalar A}.

(** The inner loop of [np.maximum]: [(in1 >= in2 || isnan(in1)) ? in1 : in2]. *)
Definition maximum (x y : A) : A :=
  if s_ge x y || s_isnan x then x else y.

(** [maximum.reduce] over one vector: it starts from the first element. *)
Definition reduce_max (r : list A) : A :=
  match r with
  | [] => s_zero
  | x :: r' => fold_left maximum r' x
  end.

(** [add.reduce] over one vector: it starts from the identity [0]. *)
Definition reduce_add (r : list A) : A := fold_left s_add r s_zero.

(** [np.max(a, axis=-1)].  A reduction without identity over an empty axis
    raises [ValueError]; on a 0-d array axis [-1] is accepted and the array
    is returned as it is. *)
Definition np_max (a : ndarray A) : result (ndarray A) :=
  match unsnoc (shape a) with
  | None => Ok a
  | Some (lead, k) =>
      if k =? 0 then Raise ValueError
      else Ok {| shape := lead;
                 data := map reduce_max (chunks k (size_of lead) (data a)) |}
  end.

(** [np.sum(a, axis=-1)]. *)
Definition np_sum (a : ndarray A) : ndarray A :=
  match unsnoc (shape a) with
  | None => a
  | Some (lead, k) =>
      {| shape := lead;
         data := map reduce_add (chunks k (size_of lead) (data a)) |}
  end.

(** [a[..., np.newaxis]]. *)
Definition newaxis (a : ndarray A) : ndarray A :=
  {| shape := shape a ++ [1]; data := data a |}.

(** [c / a], [c + a], [c * a] and [a - c] for a Python scalar [c]. *)
Definition scalar_div (c : A) (a : ndarray A) : ndarray A :=
  {| shape := shape a; data := map (fun x => s_div c x) (data a) |}.

Definition scalar_add (c : A) (a : ndarray A) : ndarray A :=
  {| shape := shape a; data := map (fun x => s_add c x) (data a) |}.

Definition scalar_mul (c : A) (a : ndarray A) : ndarray A :=
  {| shape := shape a; data := map (fun x => s_mul c x) (data a) |}.

Definition sub_scalar (a : ndarray A) (c : A) : ndarray A :=
  {| shape := shape a; data := map (fun x => s_sub x c) (data a) |}.

(** [a == c] for a Python scalar [c]: a boolean array. *)
Definition eq_scalar (a : ndarray A) (c : A) : ndarray bool :=
  {| shape := shape a; data := map (fun x => s_eq x c) (data a) |}.

(** [a[mask] = v]: boolean-mask assignment; the mask must have the shape
    of [a], numpy raises [IndexError] otherwise. *)
Definition setitem_mask (a : ndarray A) (mask : ndarray bool) (v : A)
  : result (ndarray A) :=
  if shape_eq_dec (shape mask) (shape a) then
    Ok {| shape := shape a;
          data := map2 (fun x (b : bool) => if b then v else x)
                       (data a) (data mask) |}
  else Raise IndexError.

(** [op(c, x)] for a binary ufunc [op] where [c] has a trailing axis of
    length 1 and otherwise the shape of [x]: numpy broadcasts each element
    of [c] along the corresponding vector of [x].  A 0-d [x] is broadcast
    against [c] instead.  These are the only broadcasts the two functions
    perform; other shapes are reported as numpy's "operands could not be
    broadcast together". *)
Definition bcast_col (op : A -> A -> A) (c x : ndarray A) : result (ndarray A) :=
  match unsnoc (shape x) with
  | None =>
      match data x with
      | [v] => Ok {| shape := shape c; data := map (fun ci => op ci v) (data c) |}
      | _ => Raise ValueError
      end
  | Some (lead, k) =>
      if shape_eq_dec (shape c) (lead ++ [1]) then
        Ok {| shape := shape x;
              data := concat (map2 (fun ci r => map (op ci) r)
                                   (data c) (chunks k (size_of lead) (data x))) |}
      else Raise ValueError
  end.

(** [a[..., 1:]]. *)
Definition getitem_last_from1 (a : ndarray A) : result (ndarray A) :=
  match unsnoc (shape a) with
  | None => Raise IndexError
  | Some (lead, k) =>
      Ok {| shape := lead ++ [k - 1];
            data := concat (map (@tl A) (chunks k (size_of lead) (data a))) |}
  end.

(** [a[..., 1:] = v] for an array [v] of the shape of [a[..., 1:]]. *)
Definition setitem_last_from1 (a v : ndarray A) : result (ndarray A) :=
  match unsnoc (shape a) with
  | None => Raise IndexError
  | Some (lead, k) =>
      if shape_eq_dec (shape v) (lead ++ [k - 1]) then
        Ok {| shape := shape a;
              data := concat (map2 (fun r t => firstn 1 r ++ t)
                                   (chunks k (size_of lead) (data a))
                                   (chunks (k - 1) (size_of lead) (data v))) |}
      else Raise ValueError
  end.

(** [a[..., 0]]. *)
Definition getitem_last_0 (a : ndarray A) : result (ndarray A) :=
  match unsnoc (shape a) with
  | None => Raise IndexError
  | Some (lead, k) =>
      if k =? 0 then Raise IndexError
      else Ok {| shape := lead;
                 data := column 0 (chunks k (size_of lead) (data a)) |}
  end.

(** Modelled from the spec: [colour.utilities.tsplit], imported by the module
    and defined outside it: "split an array's trailing axis into separate
    same-shape arrays".  The arrays are returned in the order in which the
    caller's tuple unpacking iterates over them. *)
Definition tsplit (a : ndarray A) : result (list (ndarray A)) :=
  match unsnoc (shape a) with
  | None => Raise IndexError
  | Some (lead, k) =>
      Ok (map (fun j => {| shape := lead;
                           data := column j (chunks k (size_of lead) (data a)) |})
              (seq 0 k))
  end.

(** Modelled from the spec: [colour.utilities.tstack], imported by the module
    and defined outside it: "stack separate same-shape arrays into one array
    with a new trailing axis". *)
Definition tstack (l : list (ndarray A)) : result (ndarray A) :=
  match l with
  | [] => Raise ValueError
  | a0 :: _ =>
      Ok {| shape := shape a0 ++ [length l];
            data := concat (zip_columns (size_of (shape a0)) (map data l)) |}
  end.

(** [r, g, b = xs]: unpacking into exactly three names. *)
Definition unpack3 {T : Type} (xs : list T) : result (T * T * T) :=
  match xs with
  | [r; g; b] => Ok (r, g, b)
  | _ => Raise ValueError
  end.

(** ** The two functions of the module *)

Definition RGB_to_Prismatic (RGB : ndarray A) : result (ndarray A) :=
  L <- np_max RGB ;;
  let s := newaxis (np_sum RGB) in
  let one_s := scalar_div s_one s in
  (* Handling zero-division NaNs. *)
  one_s <- setitem_mask one_s (eq_scalar s s_zero) s_zero ;;
  scaled <- bcast_col s_mul one_s RGB ;;
  cols <- tsplit scaled ;;
  rgb <- unpack3 cols ;;
  let '(r, g, b) := rgb in
  tstack [L; r; g; b].

Definition Prismatic_to_RGB (Lrgb : ndarray A) : result (ndarray A) :=
  rgb <- getitem_last_from1 Lrgb ;;
  m0 <- np_max rgb ;;
  let m := newaxis m0 in
  L <- getitem_last_0 Lrgb ;;
  RGB <- bcast_col s_div (newaxis L) m ;;
  (* Handling zero-division NaNs. *)
  RGB <- setitem_mask RGB (eq_scalar m s_zero) s_zero ;;
  bcast_col s_mul RGB rgb.

(** The saturation adjustment of [RGB_to_Prismatic]'s docstring:
    [Lrgb[..., 1:] = 1 / 3 + saturation * (Lrgb[..., 1:] - 1 / 3)]. *)
Definition adjust_saturation (saturation : A) (Lrgb : ndarray A)
  : result (ndarray A) :=
  let third := s_div (s_of_Z 1) (s_of_Z 3) in
  c <- getitem_last_from1 Lrgb ;;
  setitem_last_from1 Lrgb
    (scalar_add third (scalar_mul saturation (sub_scalar c third))).

(** ** What the two functions compute, vector by vector

    These are not translations of the source but the per-vector maps that
    [RGB_to_Prismatic_rows] and [Prismatic_to_RGB_rows] below prove the two
    functions to apply along the trailing axis. *)

(** A quotient [q] with denominator [s], overwritten by [0] where [s == 0]. *)
Definition guarded (q s : A) : A := if s_eq s s_zero then s_zero else q.

(** One vector of [RGB_to_Prismatic]'s output, from one input vector. *)
Definition RGB_to_Prismatic_row (r : list A) : list A :=
  let s := reduce_add r in
  reduce_max r :: map (s_mul (guarded (s_div s_one s) s)) r.

(** One vector of [Prismatic_to_RGB]'s output, from one input vector. *)
Definition Prismatic_to_RGB_row (r : list A) : list A :=
  match r with
  | [] => []
  | L :: c => let m := reduce_max c in map (s_mul (guarded (s_div L m) m)) c
  end.

End Numpy.

(** ** IEEE binary64: the dtype the functions run on *)

Fixpoint float_of_pos (p : positive) : float :=
  match p with
  | xH => 1
  | xO q => 2 * float_of_pos q
  | xI q => 2 * float_of_pos q + 1
  end%float.

Definition float_of_Z (z : Z) : float :=
  match z with
  | Z0 => 0
  | Zpos p => float_of_pos p
  | Zneg p => - float_of_pos p
  end%float.

#[export] Instance float_Scalar : Scalar float := {|
  s_of_Z := float_of_Z;
  s_add := PrimFloat.add;
  s_sub := PrimFloat.sub;
  s_mul := PrimFloat.mul;
  s_div := PrimFloat.div;
  s_ge := fun x y => PrimFloat.leb y x;
  s_eq := PrimFloat.eqb;
  s_isnan := PrimFloat.is_nan
|}.

(** ** Exact arithmetic with the IEEE special values

    A number is a rational or one of [+inf], [-inf], [nan].  Finite results
    are exact; a division by zero and the operations on the special values
    follow IEEE 754 (with a single, positive zero). *)

Inductive xnum : Type :=
| Fin (q : Qc)
| PInf
| NInf
| NaN.

(** [+inf], [-inf] or [nan] according to the sign of a product or quotient. *)
Definition signed_inf (c : comparison) : xnum :=
  match c with
  | Gt => PInf
  | Lt => NInf
  | Eq => NaN
  end.

Definition x_opp (x : xnum) : xnum :=
  match x with
  | Fin q => Fin (- q)%Qc
  | PInf => NInf
  | NInf => PInf
  | NaN => NaN
  end.

Definition x_add (x y : xnum) : xnum :=
  match x, y with
  | NaN, _ | _, NaN => NaN
  | Fin a, Fin b => Fin (a + b)%Qc
  | PInf, NInf | NInf, PInf => NaN
  | PInf, _ | _, PInf => PInf
  | NInf, _ | _, NInf => NInf
  end.

Definition x_sub (x y : xnum) : xnum :=
  match x, y with
  | Fin a, Fin b => Fin (a - b)%Qc
  | _, _ => x_add x (x_opp y)
  end.

Definition x_mul (x y : xnum) : xnum :=
  match x, y with
  | NaN, _ | _, NaN => NaN
  | Fin a, Fin b => Fin (a * b)%Qc
  | Fin a, PInf | PInf, Fin a => signed_inf (a ?= 0)%Qc
  | Fin a, NInf | NInf, Fin a => signed_inf (0 ?= a)%Qc
  | PInf, PInf | NInf, NInf => PInf
  | PInf, NInf | NInf, PInf => NInf
  end.

Definition x_div (x y : xnum) : xnum :=
  match x, y with
  | NaN, _ | _, NaN => NaN
  | Fin a, Fin b =>
      if Qc_eq_bool b 0 then signed_inf (a ?= 0)%Qc else Fin (a / b)%Qc
  | Fin _, (PInf | NInf) => Fin 0%Qc
  | PInf, Fin b => match (b ?= 0)%Qc with Lt => NInf | _ => PInf end
  | NInf, Fin b => match (b ?= 0)%Qc with Lt => PInf | _ => NInf end
  | (PInf | NInf), (PInf | NInf) => NaN
  end.

Definition x_ge (x y : xnum) : bool :=
  match x, y with
  | NaN, _ | _, NaN => false
  | Fin a, Fin b => match (a ?= b)%Qc with Lt => false | _ => true end
  | PInf, _ | _, NInf => true
  | _, PInf | NInf, _ => false
  end.

Definition x_eq (x y : xnum) : bool :=
  match x, y with
  | Fin a, Fin b => Qc_eq_bool a b
  | PInf, PInf | NInf, NInf => true
  | _, _ => false
  end.

Definition x_isnan (x : xnum) : bool :=
  match x with
  | NaN => true
  | _ => false
  end.

#[export] Instance xnum_Scalar : Scalar xnum := {|
  s_of_Z := fun z => Fin (Q2Qc (inject_Z z));
  s_add := x_add;
  s_sub := x_sub;
  s_mul := x_mul;
  s_div := x_div;
  s_ge := x_ge;
  s_eq := x_eq;
  s_isnan := x_isnan
|}.

Definition is_finite (x : xnum) : Prop :=
  match x with
  | Fin _ => True
  | _ => False
  end.

Definition nonneg_finite (x : xnum) : Prop :=
  match x with
  | Fin q => (0 <= q)%Qc
  | _ => False
  end.

Definition positive_finite (x : xnum) : Prop :=
  match x with
  | Fin q => (0 < q)%Qc
  | _ => False
  end.

(** The rational [n / d]. *)
Definition qc (n : Z) (d : positive) : Qc := Q2Qc (n # d).

(** The exact value of a binary64 number. *)
Definition exact_of_float (f : float) : xnum :=
  match Prim2SF f with
  | S754_zero _ => Fin 0%Qc
  | S754_infinity false => PInf
  | S754_infinity true => NInf
  | S754_nan => NaN
  | S754_finite s m e =>
      let n := if s then Zneg m else Zpos m in
      match e with
      | Z0 => Fin (Q2Qc (n # 1))
      | Zpos p => Fin (Q2Qc ((n * 2 ^ Zpos p) # 1))
      | Zneg p => Fin (Q2Qc (n # (2 ^ p)))
      end
  end.

(** [x] and [y] are finite and differ by at most [eps]. *)
Definition close (eps : Qc) (x y : xnum) : Prop :=
  match x, y with
  | Fin a, Fin b => (a - b <= eps /\ b - a <= eps)%Qc
  | _, _ => False
  end.

(** Seven decimals, the tolerance of the doctests. *)
Definition tolerance : Qc := qc 1 10000000.

Definition all_close (xs ys : list xnum) : Prop := Forall2 (close tolerance) xs ys.

(** [m] is the maximum of the list [l]. *)
Definition is_max (m : Qc) (l : list Qc) : Prop :=
  In m l /\ Forall (fun x => (x <= m)%Qc) l.

(** [m] is the minimum of the list [l]. *)
Definition is_min (m : Qc) (l : list Qc) : Prop :=
  In m l /\ Forall (fun x => (m <= x)%Qc) l.

(** The sum of a list of rationals. *)
Definition qsum (l : list Qc) : Qc := fold_right Qcplus 0%Qc l.

(** The larger of two rationals, as [maximum] computes it. *)
Definition qmax (a b : Qc) : Qc :=
  match (a ?= b)%Qc with
  | Lt => b
  | _ => a
  end.

(** [q], or [0] where the denominator [s] is zero. *)
Definition qguard (q s : Qc) : Qc := if Qc_eq_bool s 0 then 0%Qc else q.

(** A vector the round trip is stated for: three non-negative rationals of
    positive sum. *)
Definition valid_rgb (r : list xnum) : Prop :=
  exists R G B : Qc,
    r = [Fin R; Fin G; Fin B]
    /\ (0 <= R /\ 0 <= G /\ 0 <= B /\ 0 < R + G + B)%Qc.

(** Decidable equality of results over the exact numbers. *)
Definition x_same (x y : xnum) : bool :=
  match x, y with
  | Fin a, Fin b => Qeq_bool a b
  | PInf, PInf | NInf, NInf | NaN, NaN => true
  | _, _ => false
  end.

Fixpoint list_same (xs ys : list xnum) : bool :=
  match xs, ys with
  | [], [] => true
  | x :: xs', y :: ys' => x_same x y && list_same xs' ys'
  | _, _ => false
  end.

Definition result_same (r1 r2 : result (ndarray xnum)) : bool :=
  match r1, r2 with
  | Ok a, Ok b =>
      (if shape_eq_dec (shape a) (shape b) then true else false)
      && list_same (data a) (data b)
  | Raise ValueError, Raise ValueError => true
  | Raise IndexError, Raise IndexError => true
  | _, _ => false
  end.

(** ** Facts about rows and columns *)

Section RowFacts.
Context {A : Type}.
Implicit Types (d r : list A) (rs : list (list A)).

Lemma chunks_length k n d : length (chunks k n d) = n.
Proof.
  revert d; induction n as [|n IH]; intros d; simpl; [reflexivity|].
  now rewrite IH.
Qed.

Lemma chunks_row_length k n d :
  length d = n * k -> Forall (fun r => length r = k) (chunks k n d).
Proof.
  revert d; induction n as [|n IH]; intros d Hd; simpl; constructor.
  - rewrite length_firstn. simpl in Hd. lia.
  - apply IH. rewrite length_skipn. simpl in Hd. lia.
Qed.

Lemma chunks_concat k n rs :
  length rs = n ->
  Forall (fun r => length r = k) rs -> chunks k n (concat rs) = rs.
Proof.
  intros <-.
  induction 1 as [|r rs Hr _ IH]; simpl; [reflexivity|].
  assert (Hf : firstn k (r ++ concat rs) = r).
  { rewrite <- Hr, firstn_app, Nat.sub_diag, firstn_all. apply app_nil_r. }
  assert (Hs : skipn k (r ++ concat rs) = concat rs).
  { rewrite <- Hr, skipn_app, Nat.sub_diag, skipn_all. reflexivity. }
  now rewrite Hf, Hs, IH.
Qed.

Lemma concat_chunks k n d : length d = n * k -> concat (chunks k n d) = d.
Proof.
  revert d; induction n as [|n IH]; intros d Hd; simpl.
  - destruct d; [reflexivity | discriminate].
  - rewrite IH; [apply firstn_skipn|].
    rewrite length_skipn. simpl in Hd. lia.
Qed.

Lemma chunks_singletons n d :
  length d = n -> chunks 1 n d = map (fun x => [x]) d.
Proof.
  revert d; induction n as [|n IH]; intros [|x d] Hd; simpl in *;
    try discriminate; try reflexivity.
  f_equal. apply IH. lia.
Qed.

Lemma map2_map_map {X B C : Type} (f : A -> B -> C) (g : X -> A) (h : X -> B) l :
  map2 f (map g l) (map h l) = map (fun x => f (g x) (h x)) l.
Proof. induction l as [|x l IH]; simpl; [reflexivity | now rewrite IH]. Qed.
End RowFacts.

Lemma chunks_Forall {A : Type} (P : A -> Prop) k n (d : list A) :
  Forall P d -> Forall (Forall P) (chunks k n d).
Proof.
  revert d; induction n as [|n IH]; intros d Hd; simpl; constructor.
  - rewrite Forall_forall in *. intros x Hx. apply Hd.
    rewrite <- (firstn_skipn k d). apply in_or_app. now left.
  - apply IH. rewrite Forall_forall in *. intros x Hx. apply Hd.
    rewrite <- (firstn_skipn k d). apply in_or_app. now right.
Qed.

Lemma concat_length_const {A : Type} (rs : list (list A)) k :
  Forall (fun r => length r = k) rs -> length (concat rs) = length rs * k.
Proof.
  induction 1 as [|r rs Hr _ IH]; simpl; [reflexivity|].
  rewrite length_app, IH, Hr. reflexivity.
Qed.

Lemma Forall_concat_rows {A : Type} (P : A -> Prop) (rs : list (list A)) :
  Forall P (concat rs) <-> Forall (Forall P) rs.
Proof.
  induction rs as [|r rs IH]; simpl.
  - split; constructor.
  - rewrite Forall_app, IH. split.
    + intros [H1 H2]. now constructor.
    + intros H. inversion H; subst. now split.
Qed.

Lemma unsnoc_app lead k : unsnoc (lead ++ [k]) = Some (lead, k).
Proof. unfold unsnoc. rewrite rev_app_distr. simpl. now rewrite rev_involutive. Qed.

Lemma size_of_app lead k : size_of (lead ++ [k]) = size_of lead * k.
Proof.
  induction lead as [|x lead IH]; simpl; [lia|]. rewrite IH. lia.
Qed.

Lemma rows_shape {A : Type} (a : ndarray A) lead k :
  shape a = lead ++ [k] -> rows a = chunks k (size_of lead) (data a).
Proof. intros E. unfold rows. now rewrite E, unsnoc_app. Qed.

Lemma rows_length {A : Type} (a : ndarray A) lead k :
  shape a = lead ++ [k] -> length (rows a) = size_of lead.
Proof. intros E. rewrite (rows_shape a lead k E). apply chunks_length. Qed.

Lemma rows_row_length {A : Type} (a : ndarray A) lead k :
  wf a -> shape a = lead ++ [k] -> Forall (fun r => length r = k) (rows a).
Proof.
  intros W E. rewrite (rows_shape a lead k E). apply chunks_row_length.
  unfold wf in W. now rewrite W, E, size_of_app.
Qed.

(** ** The two functions apply their kernels along the trailing axis *)

Section KernelFacts.
Context {A : Type} {SA : Scalar A}.
Implicit Types (r : list A) (rs : list (list A)).

Lemma map2_map_l {X C : Type} (f : X -> list A -> C) (g : list A -> X) rs :
  map2 f (map g rs) rs = map (fun r => f (g r) r) rs.
Proof. induction rs as [|r rs IH]; simpl; [reflexivity | now rewrite IH]. Qed.

Lemma zip_columns_rows (f : list A -> A) (g : list A -> list A) rs :
  Forall (fun r => length (g r) = 3) rs ->
  zip_columns (length rs)
    [map f rs; column 0 (map g rs); column 1 (map g rs); column 2 (map g rs)]
  = map (fun r => f r :: g r) rs.
Proof.
  induction 1 as [|r rs Hr _ IH]; simpl; [reflexivity|].
  destruct (g r) as [|x [|y [|z [|]]]]; try discriminate.
  simpl. now rewrite IH.
Qed.

Lemma RGB_to_Prismatic_rows (a : ndarray A) lead :
  wf a -> shape a = lead ++ [3] ->
  RGB_to_Prismatic a
  = Ok {| shape := lead ++ [4];
          data := concat (map RGB_to_Prismatic_row (rows a)) |}.
Proof.
  intros W E.
  pose proof (rows_row_length a lead _ W E) as Hlen.
  pose proof (rows_length a lead _ E) as Hn.
  rewrite (rows_shape a lead 3 E) in *.
  set (rs := chunks 3 (size_of lead) (data a)) in *.
  unfold RGB_to_Prismatic, np_max, np_sum, setitem_mask, bcast_col, tsplit.
  rewrite E, unsnoc_app. simpl. fold rs.
  destruct (shape_eq_dec (lead ++ [1]) (lead ++ [1])) as [_|N]; [|now destruct N].
  simpl.
  destruct (shape_eq_dec (lead ++ [1]) (lead ++ [1])) as [_|N]; [|now destruct N].
  simpl. rewrite unsnoc_app. simpl.
  rewrite !map_map, map2_map_map, map2_map_l.
  rewrite chunks_concat.
  2:{ now rewrite length_map. }
  2:{ apply Forall_map. eapply Forall_impl; [|exact Hlen].
      intros r Hr. simpl. now rewrite length_map. }
  rewrite <- Hn. do 3 f_equal.
  apply (zip_columns_rows reduce_max
           (fun r => map (s_mul (guarded (s_div s_one (reduce_add r))
                                         (reduce_add r))) r)).
  eapply Forall_impl; [|exact Hlen].
  intros r Hr. simpl. now rewrite length_map.
Qed.

Lemma unpack3_seq {T : Type} (f : nat -> T) k :
  k <> 3 -> raises (unpack3 (map f (seq 0 k))).
Proof.
  intros Hk. destruct k as [|[|[|[|k]]]]; simpl;
    try (now exists ValueError).
Qed.

(** A trailing axis that is not of length 3 makes [RGB_to_Prismatic] raise:
    an empty axis in [np.max], any other in the unpacking of [tsplit]. *)
Lemma RGB_to_Prismatic_raises (a : ndarray A) :
  trailing a <> Some 3 -> raises (RGB_to_Prismatic a).
Proof.
  unfold trailing. intros Hk.
  unfold RGB_to_Prismatic, np_max, np_sum, setitem_mask, bcast_col, tsplit.
  destruct (unsnoc (shape a)) as [[lead k]|] eqn:E.
  - destruct (k =? 0) eqn:K; simpl; [now exists ValueError|].
    destruct (shape_eq_dec (lead ++ [1]) (lead ++ [1])) as [_|N]; [|now destruct N].
    simpl.
    destruct (shape_eq_dec (lead ++ [1]) (lead ++ [1])) as [_|N]; [|now destruct N].
    simpl. rewrite E. simpl.
    destruct (unpack3_seq
                (fun j => {| shape := lead;
                             data := column j (chunks k (size_of lead)
                               (concat (map2 (fun ci r => map (s_mul ci) r)
                                  (map2 (fun x (b : bool) => if b then s_zero else x)
                                     (map (fun x => s_div s_one x)
                                        (map reduce_add (chunks k (size_of lead) (data a))))
                                     (map (fun x => s_eq x s_zero)
                                        (map reduce_add (chunks k (size_of lead) (data a)))))
                                  (chunks k (size_of lead) (data a))))) |})
                k) as [e He].
    + intros ->. now apply Hk.
    + exists e. now rewrite He.
  - simpl.
    destruct (shape_eq_dec (shape a ++ [1]) (shape a ++ [1])) as [_|N]; [|now destruct N].
    simpl.
    destruct (data a) as [|v [|w d]]; simpl; try (now exists ValueError).
    rewrite unsnoc_app. simpl. now exists ValueError.
Qed.

Lemma Prismatic_rows_fusion rs :
  Forall (fun r => 1 <= length r) rs ->
  concat (map2 (fun ci r => map (s_mul ci) r)
            (map2 (fun x (b : bool) => if b then s_zero else x)
               (concat (map2 (fun ci r => map (s_div ci) r)
                          (column 0 rs)
                          (map (fun x => [x])
                             (map reduce_max (map (@tl A) rs)))))
               (map (fun x => s_eq x s_zero)
                  (map reduce_max (map (@tl A) rs))))
            (map (@tl A) rs))
  = concat (map Prismatic_to_RGB_row rs).
Proof.
  induction 1 as [|r rs Hr _ IH]; [reflexivity|].
  destruct r as [|L c]; [simpl in Hr; lia|].
  simpl. now rewrite IH.
Qed.

Lemma Prismatic_to_RGB_rows (a : ndarray A) lead k :
  wf a -> shape a = lead ++ [k] -> 2 <= k ->
  Prismatic_to_RGB a
  = Ok {| shape := lead ++ [k - 1];
          data := concat (map Prismatic_to_RGB_row (rows a)) |}.
Proof.
  intros W E Hk.
  pose proof (rows_row_length a lead _ W E) as Hlen.
  pose proof (rows_length a lead _ E) as Hn.
  rewrite (rows_shape a lead k E) in *.
  set (rs := chunks k (size_of lead) (data a)) in *.
  assert (Htl : chunks (k - 1) (size_of lead) (concat (map (@tl A) rs))
                = map (@tl A) rs).
  { apply chunks_concat; [now rewrite length_map|].
    apply Forall_map. eapply Forall_impl; [|exact Hlen].
    intros [|x r] Hr; simpl in *; lia. }
  unfold Prismatic_to_RGB, getitem_last_from1, np_max, getitem_last_0,
    setitem_mask, bcast_col.
  rewrite E, unsnoc_app. simpl. rewrite unsnoc_app. fold rs.
  destruct (k - 1 =? 0) eqn:K1; [apply Nat.eqb_eq in K1; lia|].
  destruct (k =? 0) eqn:K0; [apply Nat.eqb_eq in K0; lia|].
  simpl. rewrite unsnoc_app, !Htl.
  destruct (shape_eq_dec (lead ++ [1]) (lead ++ [1])) as [_|N]; [|now destruct N].
  simpl.
  destruct (shape_eq_dec (lead ++ [1]) (lead ++ [1])) as [_|N]; [|now destruct N].
  simpl.
  destruct (shape_eq_dec (lead ++ [1]) (lead ++ [1])) as [_|N]; [|now destruct N].
  rewrite chunks_singletons by (now rewrite !length_map).
  do 2 f_equal. apply Prismatic_rows_fusion.
  eapply Forall_impl; [|exact Hlen]. intros r Hr. cbv beta in *. lia.
Qed.

(** With at most one component along the trailing axis there is no
    chromaticity to take the maximum of, and [Prismatic_to_RGB] raises;
    a 0-d array cannot be sliced. *)
Lemma Prismatic_to_RGB_raises (a : ndarray A) :
  (forall k, trailing a = Some k -> k <= 1) -> raises (Prismatic_to_RGB a).
Proof.
  unfold trailing. intros Hk.
  unfold Prismatic_to_RGB, getitem_last_from1.
  destruct (unsnoc (shape a)) as [[lead k]|] eqn:E; simpl.
  - specialize (Hk k eq_refl). unfold np_max. simpl. rewrite unsnoc_app.
    replace (k - 1) with 0 by lia. simpl. now exists ValueError.
  - now exists IndexError.
Qed.

(** A single vector is a batch of one. *)
Lemma RGB_to_Prismatic_vector (v : list A) :
  length v = 3 ->
  RGB_to_Prismatic (vector v) = Ok (vector (RGB_to_Prismatic_row v)).
Proof.
  intros Hv. destruct v as [|x [|y [|z [|]]]]; try discriminate.
  now rewrite (RGB_to_Prismatic_rows (vector [x; y; z]) []).
Qed.

Lemma Prismatic_to_RGB_vector (v : list A) :
  length v = 4 ->
  Prismatic_to_RGB (vector v) = Ok (vector (Prismatic_to_RGB_row v)).
Proof.
  intros Hv. destruct v as [|L [|x [|y [|z [|]]]]]; try discriminate.
  rewrite (Prismatic_to_RGB_rows (vector [L; x; y; z]) [] 4);
    [reflexivity|reflexivity|reflexivity|lia].
Qed.
End KernelFacts.

Section Batches.
Context {A : Type} {SA : Scalar A}.

Lemma RGB_to_Prismatic_row_length (r : list A) :
  length (RGB_to_Prismatic_row r) = S (length r).
Proof. unfold RGB_to_Prismatic_row. simpl. now rewrite length_map. Qed.

Lemma Prismatic_to_RGB_row_length (r : list A) :
  length (Prismatic_to_RGB_row r) = length r - 1.
Proof.
  destruct r as [|L c]; [reflexivity|].
  unfold Prismatic_to_RGB_row. simpl. rewrite length_map. lia.
Qed.

(** The vectors of a result that is given row by row. *)
Lemma rows_of_mapped (f : list A -> list A) (rs : list (list A)) lead k :
  length rs = size_of lead ->
  Forall (fun r => length (f r) = k) rs ->
  rows {| shape := lead ++ [k]; data := concat (map f rs) |} = map f rs.
Proof.
  intros Hn Hlen. unfold rows. simpl. rewrite unsnoc_app.
  apply chunks_concat; [now rewrite length_map|].
  now apply Forall_map.
Qed.

Lemma nth_error_in_Forall (P : list A -> Prop) (rs : list (list A)) i v :
  Forall P rs -> nth_error rs i = Some v -> P v.
Proof.
  intros HP Hi. rewrite Forall_forall in HP. apply HP.
  eapply nth_error_In; eassumption.
Qed.

End Batches.

(** ** Arithmetic of the exact instance *)

Local Open Scope Qc_scope.

Lemma maximum_Fin a b : maximum (Fin a) (Fin b) = Fin (qmax a b).
Proof.
  unfold maximum, qmax. simpl. destruct (a ?= b); reflexivity.
Qed.

Lemma qmax_cases a b : (a <= b /\ qmax a b = b) \/ (b <= a /\ qmax a b = a).
Proof.
  unfold qmax. destruct (a ?= b) eqn:E.
  - right. split; [|reflexivity]. apply Qceq_alt in E. subst. apply Qcle_refl.
  - left. split; [|reflexivity]. apply Qclt_le_weak. now apply Qclt_alt.
  - right. split; [|reflexivity]. apply Qclt_le_weak. now apply Qcgt_alt.
Qed.

Lemma qmax3_is_max a b c : is_max (qmax (qmax a b) c) [a; b; c].
Proof.
  unfold is_max.
  destruct (qmax_cases a b) as [[H1 ->]|[H1 ->]];
    [destruct (qmax_cases b c) as [[H2 ->]|[H2 ->]]
    |destruct (qmax_cases a c) as [[H2 ->]|[H2 ->]]];
    (split; [simpl; tauto|]);
    repeat constructor; try apply Qcle_refl; try assumption;
    eauto using Qcle_trans.
Qed.

Lemma is_max_unique m m' l : is_max m l -> is_max m' l -> m = m'.
Proof.
  intros [I B] [I' B']. rewrite Forall_forall in B, B'.
  apply Qcle_antisym; auto.
Qed.

Lemma Qcmult_le_compat_l c x y : 0 <= c -> x <= y -> c * x <= c * y.
Proof.
  intros Hc H. rewrite (Qcmult_comm c x), (Qcmult_comm c y).
  now apply Qcmult_le_compat_r.
Qed.

Lemma is_max_scale c m l :
  0 <= c -> is_max m l -> is_max (c * m) (map (Qcmult c) l).
Proof.
  intros Hc [I B]. split.
  - now apply in_map.
  - apply Forall_map. eapply Forall_impl; [|exact B].
    intros x Hx. now apply Qcmult_le_compat_l.
Qed.

Lemma qguard_zero q : qguard q 0 = 0.
Proof. reflexivity. Qed.

Lemma qguard_nonzero q s : s <> 0 -> qguard q s = q.
Proof.
  intros Hs. unfold qguard, Qc_eq_bool.
  destruct (Qc_eq_dec s 0); [contradiction | reflexivity].
Qed.

(** The two kernels on vectors of finite numbers. *)
Lemma RGB_to_Prismatic_row_Fin R G B :
  let c := qguard (1 / (R + G + B)) (R + G + B) in
  RGB_to_Prismatic_row [Fin R; Fin G; Fin B]
  = [Fin (qmax (qmax R G) B); Fin (c * R); Fin (c * G); Fin (c * B)].
Proof.
  intros c. unfold RGB_to_Prismatic_row, reduce_add, reduce_max. simpl.
  change (Q2Qc (inject_Z 0)) with 0.
  rewrite !maximum_Fin, Qcplus_0_l.
  unfold guarded, c, qguard. simpl.
  change (Q2Qc (inject_Z 0)) with 0.
  destruct (Qc_eq_bool (R + G + B) 0); reflexivity.
Qed.

Lemma Prismatic_to_RGB_row_Fin L r g b :
  let m := qmax (qmax r g) b in
  let c := qguard (L / m) m in
  Prismatic_to_RGB_row [Fin L; Fin r; Fin g; Fin b]
  = [Fin (c * r); Fin (c * g); Fin (c * b)].
Proof.
  intros m c. unfold Prismatic_to_RGB_row, reduce_max. simpl.
  rewrite !maximum_Fin. fold m.
  unfold guarded, c, qguard. simpl.
  change (Q2Qc (inject_Z 0)) with 0.
  destruct (Qc_eq_bool m 0); reflexivity.
Qed.

Lemma RGB_to_Prismatic_Fin R G B :
  let c := qguard (1 / (R + G + B)) (R + G + B) in
  RGB_to_Prismatic (vector [Fin R; Fin G; Fin B])
  = Ok (vector [Fin (qmax (qmax R G) B); Fin (c * R); Fin (c * G); Fin (c * B)]).
Proof.
  intros c. rewrite RGB_to_Prismatic_vector by reflexivity.
  now rewrite RGB_to_Prismatic_row_Fin.
Qed.

Lemma Prismatic_to_RGB_Fin L r g b :
  let m := qmax (qmax r g) b in
  let c := qguard (L / m) m in
  Prismatic_to_RGB (vector [Fin L; Fin r; Fin g; Fin b])
  = Ok (vector [Fin (c * r); Fin (c * g); Fin (c * b)]).
Proof.
  intros m c. rewrite Prismatic_to_RGB_vector by reflexivity.
  now rewrite Prismatic_to_RGB_row_Fin.
Qed.

Lemma RGB_to_Prismatic_row_finite (r : list xnum) :
  length r = 3%nat -> Forall is_finite r ->
  Forall is_finite (RGB_to_Prismatic_row r).
Proof.
  intros Hl Hf. destruct r as [|x [|y [|z [|]]]]; try discriminate.
  inversion_clear Hf as [|? ? Hx Hf']. inversion_clear Hf' as [|? ? Hy Hf''].
  inversion_clear Hf'' as [|? ? Hz _].
  destruct x as [R| | |], y as [G| | |], z as [B| | |]; try contradiction.
  rewrite RGB_to_Prismatic_row_Fin. repeat constructor.
Qed.

Lemma Qcinv_pos s : 0 < s -> 0 < / s.
Proof.
  unfold Qclt, Qcinv. simpl. intros Hs.
  rewrite Qred_correct. now apply Qinv_lt_0_compat.
Qed.

Lemma Qcdiv_nonneg a s : 0 <= a -> 0 < s -> 0 <= a / s.
Proof.
  intros Ha Hs. unfold Qcdiv.
  rewrite <- (Qcmult_0_l (/ s)).
  apply Qcmult_le_compat_r; [exact Ha|].
  apply Qclt_le_weak. now apply Qcinv_pos.
Qed.

Lemma Qclt_neq_0 s : 0 < s -> s <> 0.
Proof. intros Hs E. rewrite E in Hs. exact (Qclt_not_eq _ _ Hs eq_refl). Qed.

Lemma x_same_eq x y : x_same x y = true -> x = y.
Proof.
  destruct x as [a| | |], y as [b| | |]; simpl; try discriminate; try reflexivity.
  intros H. f_equal. apply Qc_is_canon. now apply Qeq_bool_eq.
Qed.

Lemma list_same_eq xs ys : list_same xs ys = true -> xs = ys.
Proof.
  revert ys; induction xs as [|x xs IH]; intros [|y ys]; simpl;
    try discriminate; try reflexivity.
  intros H. apply andb_prop in H as [H1 H2].
  f_equal; [now apply x_same_eq | now apply IH].
Qed.

Lemma result_same_eq r1 r2 : result_same r1 r2 = true -> r1 = r2.
Proof.
  destruct r1 as [[s1 d1]|[|]], r2 as [[s2 d2]|[|]]; simpl;
    try discriminate; try reflexivity.
  destruct (shape_eq_dec s1 s2) as [->|]; [|discriminate].
  simpl. intros H. now rewrite (list_same_eq _ _ H).
Qed.

Ltac close_enough :=
  repeat constructor; vm_compute; intros H; discriminate H.

(** Runs a call on binary64 numbers and exhibits the vector it returns. *)
Ltac run_binary64 :=
  match goal with
  | |- exists out, ?call = Ok (vector out) /\ _ =>
      let v := eval vm_compute in call in
      match v with
      | Ok {| shape := _; data := ?d |} =>
          exists d; split; [vm_compute; reflexivity|]
      end
  end.

(** The round trip on one vector. *)
Lemma round_trip_row (R G B M : Qc) :
  is_max M [R; G; B] -> 0 < M -> 0 < R + G + B ->
  Prismatic_to_RGB_row (RGB_to_Prismatic_row [Fin R; Fin G; Fin B])
  = [Fin R; Fin G; Fin B].
Proof.
  intros HM HMpos Hs.
  pose proof (Qclt_neq_0 _ Hs) as Hs0.
  pose proof (Qclt_neq_0 _ HMpos) as HM0.
  rewrite RGB_to_Prismatic_row_Fin, Prismatic_to_RGB_row_Fin.
  rewrite (qguard_nonzero _ _ Hs0).
  set (c := 1 / (R + G + B)).
  assert (Hc : 0 < c).
  { unfold c, Qcdiv. rewrite Qcmult_1_l. now apply Qcinv_pos. }
  rewrite (is_max_unique _ _ _ (qmax3_is_max R G B) HM).
  assert (Hm : qmax (qmax (c * R) (c * G)) (c * B) = c * M).
  { eapply is_max_unique; [apply qmax3_is_max|].
    apply (is_max_scale c M [R; G; B]); [now apply Qclt_le_weak | exact HM]. }
  rewrite Hm, qguard_nonzero.
  2:{ intros E. apply Qcmult_integral in E as [E|E];
        [exact (Qclt_neq_0 _ Hc E) | exact (HM0 E)]. }
  assert (Hq : M / (c * M) = R + G + B).
  { unfold c. field. split; [exact Hs0 | exact HM0]. }
  rewrite Hq.
  assert (Hr : forall x, (R + G + B) * (c * x) = x).
  { intros x. unfold c. field. exact Hs0. }
  now rewrite !Hr.
Qed.

(** ** The properties of the specification *)

(** C1, as the code has it: in exact arithmetic, on non-negative RGB vectors
    with a positive maximum and a positive sum, [Prismatic_to_RGB] undoes
    [RGB_to_Prismatic] exactly.  No tolerance is promised in binary64, see
    [binary64_round_trip_lost]. *)
Theorem Prismatic_round_trip (R G B M : Qc) :
  0 <= R -> 0 <= G -> 0 <= B ->
  is_max M [R; G; B] -> 0 < M ->
  0 < R + G + B ->
  (p <- RGB_to_Prismatic (vector [Fin R; Fin G; Fin B]) ;; Prismatic_to_RGB p)
  = Ok (vector [Fin R; Fin G; Fin B]).
Proof.
  intros _ _ _ HM HMpos Hs.
  rewrite RGB_to_Prismatic_vector by reflexivity. simpl bind.
  rewrite Prismatic_to_RGB_vector
    by (now rewrite RGB_to_Prismatic_row_length).
  now rewrite (round_trip_row R G B M HM HMpos Hs).
Qed.

Lemma Prismatic_round_trip_witness :
  (0 <= qc 1 4 /\ 0 <= qc 1 2 /\ 0 <= qc 3 4
   /\ is_max (qc 3 4) [qc 1 4; qc 1 2; qc 3 4] /\ 0 < qc 3 4
   /\ 0 < qc 1 4 + qc 1 2 + qc 3 4)
  /\ (p <- RGB_to_Prismatic (vector [Fin (qc 1 4); Fin (qc 1 2); Fin (qc 3 4)]) ;;
      Prismatic_to_RGB p)
     = Ok (vector [Fin (qc 1 4); Fin (qc 1 2); Fin (qc 3 4)]).
Proof.
  assert (H1 : 0 <= qc 1 4) by (vm_compute; discriminate).
  assert (H2 : 0 <= qc 1 2) by (vm_compute; discriminate).
  assert (H3 : 0 <= qc 3 4) by (vm_compute; discriminate).
  assert (H4 : is_max (qc 3 4) [qc 1 4; qc 1 2; qc 3 4]).
  { split; [simpl; tauto|]. repeat constructor; vm_compute; discriminate. }
  assert (H5 : 0 < qc 3 4) by reflexivity.
  assert (H6 : 0 < qc 1 4 + qc 1 2 + qc 3 4) by reflexivity.
  split; [tauto|].
  exact (Prismatic_round_trip (qc 1 4) (qc 1 2) (qc 3 4) (qc 3 4) H1 H2 H3 H4 H5 H6).
Defined.

(** C1 as stated fails in binary64.  The sum of three components near the
    top of the range overflows to infinity, its reciprocal is 0 and the
    vector comes back as zeros; the reciprocal of a subnormal sum overflows,
    the chromaticity is infinite and the vector, which lies inside [[0, 1]],
    comes back as [nan]. *)
Lemma binary64_round_trip_lost :
  (Forall positive_finite (map exact_of_float [1e308; 1e308; 1e308]%float)
   /\ (p <- RGB_to_Prismatic (vector [1e308; 1e308; 1e308]%float) ;;
       Prismatic_to_RGB p)
      = Ok (vector [0; 0; 0]%float)
   /\ ~ all_close (map exact_of_float [0; 0; 0]%float)
                  (map exact_of_float [1e308; 1e308; 1e308]%float))
  /\ (Forall positive_finite (map exact_of_float [1e-310; 2e-310; 3e-310]%float)
      /\ (p <- RGB_to_Prismatic (vector [1e-310; 2e-310; 3e-310]%float) ;;
          Prismatic_to_RGB p)
         = Ok (vector [nan; nan; nan]%float)
      /\ ~ all_close (map exact_of_float [nan; nan; nan]%float)
                     (map exact_of_float [1e-310; 2e-310; 3e-310]%float)).
Proof.
  split; (split; [repeat constructor; vm_compute; reflexivity|]);
    (split; [vm_compute; reflexivity|]); intros H;
    inversion_clear H as [|? ? ? ? Hc _]; vm_compute in Hc.
  - destruct Hc as [_ Hc]. exact (Hc eq_refl).
  - exact Hc.
Qed.

(** C2, as the code has it: in exact arithmetic, for every RGB vector with
    [R + G + B > 0] the three chromaticity components returned by
    [RGB_to_Prismatic] sum to exactly 1, and the first component returned is
    the maximum of [R], [G] and [B].  No tolerance is promised in binary64,
    see [binary64_chromaticity_sum_lost]. *)
Theorem RGB_to_Prismatic_chromaticity_sum (R G B : Qc) :
  0 < R + G + B ->
  exists L rho gamma beta : Qc,
    RGB_to_Prismatic (vector [Fin R; Fin G; Fin B])
    = Ok (vector [Fin L; Fin rho; Fin gamma; Fin beta])
    /\ rho + gamma + beta = 1
    /\ is_max L [R; G; B].
Proof.
  intros Hs.
  assert (Hs0 : R + G + B <> 0).
  { intros E. rewrite E in Hs. exact (Qclt_not_eq _ _ Hs eq_refl). }
  rewrite RGB_to_Prismatic_Fin, (qguard_nonzero _ _ Hs0).
  do 4 eexists. split; [reflexivity|]. split.
  - field. exact Hs0.
  - apply qmax3_is_max.
Qed.

Lemma RGB_to_Prismatic_chromaticity_sum_witness :
  0 < qc 1 4 + qc 1 2 + qc 3 4 /\
  exists L rho gamma beta : Qc,
    RGB_to_Prismatic (vector [Fin (qc 1 4); Fin (qc 1 2); Fin (qc 3 4)])
    = Ok (vector [Fin L; Fin rho; Fin gamma; Fin beta])
    /\ rho + gamma + beta = 1
    /\ is_max L [qc 1 4; qc 1 2; qc 3 4].
Proof.
  split; [reflexivity|].
  apply (RGB_to_Prismatic_chromaticity_sum (qc 1 4) (qc 1 2) (qc 3 4)).
  reflexivity.
Defined.

(** C2 as stated fails in binary64.  Where the computed sum overflows to
    infinity (its reciprocal is 0) or rounds to 0 although the real sum is
    positive (the guard fires), the three chromaticity components are zeros
    and sum to 0, not to 1. *)
Lemma binary64_chromaticity_sum_lost :
  (Forall positive_finite (map exact_of_float [1e308; 1e308; 1e308]%float)
   /\ RGB_to_Prismatic (vector [1e308; 1e308; 1e308]%float)
      = Ok (vector [1e308; 0; 0; 0]%float)
   /\ ~ close tolerance (reduce_add (map exact_of_float [0; 0; 0]%float)) (Fin 1))
  /\ (positive_finite (reduce_add (map exact_of_float [1; 1e-17; -1]%float))
      /\ RGB_to_Prismatic (vector [1; 1e-17; -1]%float)
         = Ok (vector [1; 0; 0; -0]%float)
      /\ ~ close tolerance (reduce_add (map exact_of_float [0; 0; -0]%float))
                           (Fin 1)).
Proof.
  split.
  - split; [repeat constructor; vm_compute; reflexivity|].
    split; [vm_compute; reflexivity|].
    intros H. vm_compute in H. destruct H as [_ H]. exact (H eq_refl).
  - split; [vm_compute; reflexivity|].
    split; [vm_compute; reflexivity|].
    intros H. vm_compute in H. destruct H as [_ H]. exact (H eq_refl).
Qed.

(** C3: on finite non-negative input [RGB_to_Prismatic] returns finite
    numbers only, no [nan] and no infinity, and the all-zero vector is mapped
    to the all-zero Prismatic vector. *)
Theorem RGB_to_Prismatic_no_nan_inf :
  (forall (a : ndarray xnum) (lead : list nat),
      wf a -> shape a = (lead ++ [3])%nat ->
      Forall nonneg_finite (data a) ->
      exists out, RGB_to_Prismatic a = Ok out /\ Forall is_finite (data out))
  /\ RGB_to_Prismatic (vector [Fin 0; Fin 0; Fin 0])
     = Ok (vector [Fin 0; Fin 0; Fin 0; Fin 0]).
Proof.
  split.
  - intros a lead W E Hfin.
    rewrite (RGB_to_Prismatic_rows a lead W E).
    eexists. split; [reflexivity|]. simpl.
    apply Forall_concat_rows, Forall_map.
    pose proof (rows_row_length a lead 3%nat W E) as Hlen.
    assert (Hrows : Forall (Forall is_finite) (rows a)).
    { rewrite (rows_shape a lead 3%nat E). apply chunks_Forall.
      eapply Forall_impl; [|exact Hfin]. now intros [q| | |]. }
    rewrite Forall_forall in *. intros r Hr.
    apply RGB_to_Prismatic_row_finite; auto.
  - rewrite RGB_to_Prismatic_Fin.
    replace (0 + 0 + 0) with 0 by (apply Qc_is_canon; reflexivity).
    now rewrite qguard_zero, !Qcmult_0_l.
Qed.

Lemma RGB_to_Prismatic_no_nan_inf_witness :
  let a := mk_ndarray [2; 3]%nat
             [Fin (qc 1 4); Fin (qc 1 2); Fin (qc 3 4); Fin 0; Fin 0; Fin 0] in
  (wf a /\ shape a = ([2] ++ [3])%nat /\ Forall nonneg_finite (data a))
  /\ exists out, RGB_to_Prismatic a = Ok out /\ Forall is_finite (data out).
Proof.
  intros a.
  assert (H1 : wf a) by reflexivity.
  assert (H2 : shape a = ([2] ++ [3])%nat) by reflexivity.
  assert (H3 : Forall nonneg_finite (data a))
    by (repeat constructor; vm_compute; discriminate).
  split; [tauto|].
  exact (proj1 RGB_to_Prismatic_no_nan_inf a [2%nat] H1 H2 H3).
Defined.

(** C4: the degenerate Prismatic vector [(L, 0, 0, 0)] is mapped to the zero
    RGB vector, whatever the finite [L]. *)
Theorem Prismatic_to_RGB_degenerate (L : Qc) :
  Prismatic_to_RGB (vector [Fin L; Fin 0; Fin 0; Fin 0])
  = Ok (vector [Fin 0; Fin 0; Fin 0]).
Proof.
  rewrite Prismatic_to_RGB_Fin.
  change (qmax (qmax 0 0) 0) with 0.
  now rewrite qguard_zero, !Qcmult_0_l.
Qed.

(** C5, as the code has it: in exact arithmetic, for a Prismatic vector
    whose luminance is non-negative and whose chromaticity lies on the
    simplex (non-negative components of sum 1, hence a positive maximum),
    the largest component returned by [Prismatic_to_RGB] is the luminance.
    No tolerance is promised in binary64, see [binary64_luminance_lost]. *)
Theorem Prismatic_to_RGB_luminance (L rho gamma beta : Qc) :
  0 <= L -> 0 <= rho -> 0 <= gamma -> 0 <= beta ->
  rho + gamma + beta = 1 ->
  exists R G B : Qc,
    Prismatic_to_RGB (vector [Fin L; Fin rho; Fin gamma; Fin beta])
    = Ok (vector [Fin R; Fin G; Fin B])
    /\ is_max L [R; G; B].
Proof.
  intros HL Hr Hg Hb Hsum.
  rewrite Prismatic_to_RGB_Fin.
  set (m := qmax (qmax rho gamma) beta).
  pose proof (qmax3_is_max rho gamma beta) as Hmax. fold m in Hmax.
  assert (Hm : 0 < m).
  { destruct (Qclt_le_dec 0 m) as [H|H]; [exact H|exfalso].
    destruct Hmax as [_ Hle].
    inversion_clear Hle as [|? ? H1 Hle']. inversion_clear Hle' as [|? ? H2 Hle''].
    inversion_clear Hle'' as [|? ? H3 _].
    assert (rho = 0) by (apply Qcle_antisym; eauto using Qcle_trans).
    assert (gamma = 0) by (apply Qcle_antisym; eauto using Qcle_trans).
    assert (beta = 0) by (apply Qcle_antisym; eauto using Qcle_trans).
    subst rho gamma beta. rewrite !Qcplus_0_l in Hsum.
    exact (Q_apart_0_1 (eq_sym Hsum)). }
  pose proof (Qclt_neq_0 _ Hm) as Hm0.
  rewrite (qguard_nonzero _ _ Hm0).
  do 3 eexists. split; [reflexivity|].
  replace L with ((L / m) * m) at 1 by (field; exact Hm0).
  apply (is_max_scale (L / m) m [rho; gamma; beta]); [|exact Hmax].
  now apply Qcdiv_nonneg.
Qed.

Lemma Prismatic_to_RGB_luminance_witness :
  (0 <= qc 3 4 /\ 0 <= qc 1 6 /\ 0 <= qc 1 3 /\ 0 <= qc 1 2
   /\ qc 1 6 + qc 1 3 + qc 1 2 = 1)
  /\ exists R G B : Qc,
       Prismatic_to_RGB
         (vector [Fin (qc 3 4); Fin (qc 1 6); Fin (qc 1 3); Fin (qc 1 2)])
       = Ok (vector [Fin R; Fin G; Fin B])
       /\ is_max (qc 3 4) [R; G; B].
Proof.
  assert (H1 : 0 <= qc 3 4) by (vm_compute; discriminate).
  assert (H2 : 0 <= qc 1 6) by (vm_compute; discriminate).
  assert (H3 : 0 <= qc 1 3) by (vm_compute; discriminate).
  assert (H4 : 0 <= qc 1 2) by (vm_compute; discriminate).
  assert (H5 : qc 1 6 + qc 1 3 + qc 1 2 = 1) by (apply Qc_is_canon; reflexivity).
  split; [tauto|].
  exact (Prismatic_to_RGB_luminance (qc 3 4) (qc 1 6) (qc 1 3) (qc 1 2)
           H1 H2 H3 H4 H5).
Defined.

(** C5 as stated fails in binary64.  With a luminance near the top of the
    range the quotient [L / m] overflows: for a chromaticity exactly on the
    simplex every component returned is infinite, none is the luminance. *)
Lemma binary64_luminance_lost :
  nonneg_finite (exact_of_float 1e308)
  /\ Forall nonneg_finite (map exact_of_float [0.25; 0.25; 0.5]%float)
  /\ reduce_add (map exact_of_float [0.25; 0.25; 0.5]%float) = Fin 1
  /\ Prismatic_to_RGB (vector [1e308; 0.25; 0.25; 0.5]%float)
     = Ok (vector [infinity; infinity; infinity]%float)
  /\ Forall (fun x => ~ close tolerance (exact_of_float x) (exact_of_float 1e308))
            [infinity; infinity; infinity]%float.
Proof.
  split; [vm_compute; discriminate|].
  split; [repeat constructor; vm_compute; discriminate|].
  split; [apply x_same_eq; vm_compute; reflexivity|].
  split; [vm_compute; reflexivity|].
  repeat constructor; intros H; vm_compute in H; exact H.
Qed.

(** C10: whenever the components sum to exactly zero, also when some of them
    are positive and some negative, [RGB_to_Prismatic] returns
    [(max(R,G,B), 0, 0, 0)], all finite; the luminance is positive as soon as
    one component is. *)
Theorem RGB_to_Prismatic_zero_sum (R G B : Qc) :
  R + G + B = 0 ->
  exists L : Qc,
    RGB_to_Prismatic (vector [Fin R; Fin G; Fin B])
    = Ok (vector [Fin L; Fin 0; Fin 0; Fin 0])
    /\ is_max L [R; G; B]
    /\ (0 < R \/ 0 < G \/ 0 < B -> 0 < L).
Proof.
  intros Hs. rewrite RGB_to_Prismatic_Fin, Hs, qguard_zero, !Qcmult_0_l.
  pose proof (qmax3_is_max R G B) as HM.
  eexists. split; [reflexivity|]. split; [exact HM|].
  destruct HM as [_ Hle].
  inversion_clear Hle as [|? ? H1 Hle']. inversion_clear Hle' as [|? ? H2 Hle''].
  inversion_clear Hle'' as [|? ? H3 _].
  intros [H|[H|H]]; eauto using Qclt_le_trans.
Qed.

Lemma RGB_to_Prismatic_zero_sum_witness :
  qc 1 1 + qc (-1) 1 + qc 0 1 = 0 /\
  exists L : Qc,
    RGB_to_Prismatic (vector [Fin (qc 1 1); Fin (qc (-1) 1); Fin (qc 0 1)])
    = Ok (vector [Fin L; Fin 0; Fin 0; Fin 0])
    /\ is_max L [qc 1 1; qc (-1) 1; qc 0 1]
    /\ (0 < qc 1 1 \/ 0 < qc (-1) 1 \/ 0 < qc 0 1 -> 0 < L).
Proof.
  assert (H : qc 1 1 + qc (-1) 1 + qc 0 1 = 0) by (apply Qc_is_canon; reflexivity).
  split; [exact H|].
  exact (RGB_to_Prismatic_zero_sum (qc 1 1) (qc (-1) 1) (qc 0 1) H).
Defined.

Local Close Scope Qc_scope.

(** C6, as the code has it: [RGB_to_Prismatic] raises on every trailing axis
    whose length is not 3 (from the empty reduction or from the unpacking of
    [tsplit]).  [Prismatic_to_RGB] has no such check: it raises when the
    trailing axis has at most one component (or the array is 0-d), and for
    every trailing length [k >= 2], not only [k = 4], it returns an array of
    trailing length [k - 1]. *)
Theorem trailing_axis_errors {A : Type} {SA : Scalar A} (a : ndarray A) :
  (trailing a <> Some 3 -> raises (RGB_to_Prismatic a))
  /\ ((forall k, trailing a = Some k -> k <= 1) -> raises (Prismatic_to_RGB a))
  /\ (forall lead k,
         wf a -> shape a = lead ++ [k] -> 2 <= k ->
         exists out, Prismatic_to_RGB a = Ok out /\ shape out = lead ++ [k - 1]).
Proof.
  split; [apply RGB_to_Prismatic_raises|].
  split; [apply Prismatic_to_RGB_raises|].
  intros lead k W E Hk.
  rewrite (Prismatic_to_RGB_rows a lead k W E Hk).
  eexists. split; reflexivity.
Qed.

Lemma trailing_axis_errors_witness :
  raises (RGB_to_Prismatic (vector [0.75; 0.25; 0.25; 0.5]%float))
  /\ raises (Prismatic_to_RGB (vector [0.75]%float))
  /\ exists out,
       Prismatic_to_RGB (mk_ndarray [2; 5] [8; 1; 2; 3; 4; 6; 0; 0; 0; 0]%float)
       = Ok out
       /\ shape out = [2; 4].
Proof.
  split; [|split].
  - apply (proj1 (trailing_axis_errors (vector [0.75; 0.25; 0.25; 0.5]%float))).
    discriminate.
  - apply (proj1 (proj2 (trailing_axis_errors (vector [0.75]%float)))).
    intros k H. injection H as <-. lia.
  - apply (proj2 (proj2 (trailing_axis_errors
             (mk_ndarray [2; 5] [8; 1; 2; 3; 4; 6; 0; 0; 0; 0]%float))) [2] 5).
    + reflexivity.
    + reflexivity.
    + lia.
Defined.

(** C6 as stated fails: an RGB triple handed to [Prismatic_to_RGB] has a
    trailing axis of length 3, not 4, and yet a two-component vector is
    returned and nothing is raised. *)
Lemma Prismatic_to_RGB_accepts_a_triple :
  trailing (vector [Fin (qc 1 4); Fin (qc 1 2); Fin (qc 3 4)]) <> Some 4
  /\ Prismatic_to_RGB (vector [Fin (qc 1 4); Fin (qc 1 2); Fin (qc 3 4)])
     = Ok (vector [Fin (qc 1 6); Fin (qc 1 4)])
  /\ ~ raises (Prismatic_to_RGB (vector [Fin (qc 1 4); Fin (qc 1 2); Fin (qc 3 4)])).
Proof.
  assert (H : Prismatic_to_RGB (vector [Fin (qc 1 4); Fin (qc 1 2); Fin (qc 3 4)])
              = Ok (vector [Fin (qc 1 6); Fin (qc 1 4)])).
  { apply result_same_eq. vm_compute. reflexivity. }
  split; [discriminate|]. split; [exact H|].
  rewrite H. intros [e He]. discriminate He.
Qed.

(** C7: the docstring examples.  On [[0.25, 0.50, 0.75]] [RGB_to_Prismatic]
    returns [[0.75, 0.16666667, 0.33333333, 0.5]] and on that vector
    [Prismatic_to_RGB] returns [[0.25, 0.5, 0.75]], both to seven decimals,
    in exact arithmetic as well as in binary64. *)
Theorem docstring_examples :
  (exists out,
     RGB_to_Prismatic (vector [Fin (qc 25 100); Fin (qc 50 100); Fin (qc 75 100)])
     = Ok (vector out)
     /\ all_close out
          [Fin (qc 75 100); Fin (qc 16666667 100000000);
           Fin (qc 33333333 100000000); Fin (qc 5 10)])
  /\ (exists out,
        Prismatic_to_RGB
          (vector [Fin (qc 75 100); Fin (qc 16666667 100000000);
                   Fin (qc 33333333 100000000); Fin (qc 5 10)])
        = Ok (vector out)
        /\ all_close out [Fin (qc 25 100); Fin (qc 5 10); Fin (qc 75 100)])
  /\ (exists out,
        RGB_to_Prismatic (vector [0.25; 0.50; 0.75]%float) = Ok (vector out)
        /\ all_close (map exact_of_float out)
             [Fin (qc 75 100); Fin (qc 16666667 100000000);
              Fin (qc 33333333 100000000); Fin (qc 5 10)])
  /\ (exists out,
        Prismatic_to_RGB (vector [0.75; 0.16666667; 0.33333333; 0.5]%float)
        = Ok (vector out)
        /\ all_close (map exact_of_float out)
             [Fin (qc 25 100); Fin (qc 5 10); Fin (qc 75 100)]).
Proof.
  repeat split.
  - exists [Fin (qc 3 4); Fin (qc 1 6); Fin (qc 1 3); Fin (qc 1 2)].
    split; [apply result_same_eq; vm_compute; reflexivity | close_enough].
  - exists [Fin (qc 50000001 200000000); Fin (qc 99999999 200000000); Fin (qc 3 4)].
    split; [apply result_same_eq; vm_compute; reflexivity | close_enough].
  - run_binary64. close_enough.
  - run_binary64. close_enough.
Qed.

(** C8: the saturation adjustment of the docstring, made by rewriting the
    chromaticity components of the array in place, gives
    [[0.45, 0.6, 0.75]] to seven decimals, in exact arithmetic (where the
    result is exact) as well as in binary64. *)
Theorem docstring_saturation :
  (Lrgb <- RGB_to_Prismatic (vector [Fin (qc 25 100); Fin (qc 50 100); Fin (qc 75 100)]) ;;
   Lrgb <- adjust_saturation (Fin (qc 5 10)) Lrgb ;;
   Prismatic_to_RGB Lrgb)
  = Ok (vector [Fin (qc 45 100); Fin (qc 6 10); Fin (qc 75 100)])
  /\ (exists out,
        (Lrgb <- RGB_to_Prismatic (vector [0.25; 0.50; 0.75]%float) ;;
         Lrgb <- adjust_saturation 0.5%float Lrgb ;;
         Prismatic_to_RGB Lrgb)
        = Ok (vector out)
        /\ all_close (map exact_of_float out)
             [Fin (qc 45 100); Fin (qc 6 10); Fin (qc 75 100)]).
Proof.
  split.
  - apply result_same_eq. vm_compute. reflexivity.
  - run_binary64. close_enough.
Qed.

(** C9: applied to a batch, each of the two functions returns at every batch
    position the vector it returns when applied to the vector at that
    position alone; the batch result has as many vectors as the batch. *)
Theorem batch_invariance {A : Type} {SA : Scalar A} (a : ndarray A) (lead : list nat) :
  wf a ->
  (shape a = lead ++ [3] ->
   exists out,
     RGB_to_Prismatic a = Ok out
     /\ shape out = lead ++ [4]
     /\ length (rows out) = length (rows a)
     /\ forall i v, nth_error (rows a) i = Some v ->
          exists w, RGB_to_Prismatic (vector v) = Ok (vector w)
                    /\ nth_error (rows out) i = Some w)
  /\ (shape a = lead ++ [4] ->
      exists out,
        Prismatic_to_RGB a = Ok out
        /\ shape out = lead ++ [3]
        /\ length (rows out) = length (rows a)
        /\ forall i v, nth_error (rows a) i = Some v ->
             exists w, Prismatic_to_RGB (vector v) = Ok (vector w)
                       /\ nth_error (rows out) i = Some w).
Proof.
  intros W. split; intros E.
  - pose proof (rows_row_length a lead 3 W E) as Hlen.
    pose proof (rows_length a lead 3 E) as Hn.
    rewrite (RGB_to_Prismatic_rows a lead W E).
    eexists. split; [reflexivity|]. split; [reflexivity|].
    rewrite (rows_of_mapped RGB_to_Prismatic_row (rows a) lead 4 Hn).
    2:{ eapply Forall_impl; [|exact Hlen].
        intros r Hr. cbv beta in *. now rewrite RGB_to_Prismatic_row_length, Hr. }
    split; [apply length_map|].
    intros i v Hi. exists (RGB_to_Prismatic_row v). split.
    + apply RGB_to_Prismatic_vector.
      exact (nth_error_in_Forall _ _ i v Hlen Hi).
    + now apply map_nth_error.
  - pose proof (rows_row_length a lead 4 W E) as Hlen.
    pose proof (rows_length a lead 4 E) as Hn.
    rewrite (Prismatic_to_RGB_rows a lead 4 W E) by lia.
    eexists. split; [reflexivity|]. split; [reflexivity|].
    change (4 - 1) with 3.
    rewrite (rows_of_mapped Prismatic_to_RGB_row (rows a) lead 3 Hn).
    2:{ eapply Forall_impl; [|exact Hlen].
        intros r Hr. cbv beta in *. now rewrite Prismatic_to_RGB_row_length, Hr. }
    split; [apply length_map|].
    intros i v Hi. exists (Prismatic_to_RGB_row v). split.
    + apply Prismatic_to_RGB_vector.
      exact (nth_error_in_Forall _ _ i v Hlen Hi).
    + now apply map_nth_error.
Qed.

Lemma batch_invariance_witness :
  (exists out,
     RGB_to_Prismatic (mk_ndarray [2; 3] [0.25; 0.5; 0.75; 0; 0; 0]%float) = Ok out
     /\ shape out = [2; 4]
     /\ length (rows out)
        = length (rows (mk_ndarray [2; 3] [0.25; 0.5; 0.75; 0; 0; 0]%float))
     /\ forall i v,
          nth_error (rows (mk_ndarray [2; 3] [0.25; 0.5; 0.75; 0; 0; 0]%float)) i
          = Some v ->
          exists w, RGB_to_Prismatic (vector v) = Ok (vector w)
                    /\ nth_error (rows out) i = Some w)
  /\ (exists out,
        Prismatic_to_RGB (mk_ndarray [2; 4] [0.75; 0.25; 0.25; 0.5; 7; 0; 0; 0]%float)
        = Ok out
        /\ shape out = [2; 3]
        /\ length (rows out)
           = length (rows (mk_ndarray [2; 4] [0.75; 0.25; 0.25; 0.5; 7; 0; 0; 0]%float))
        /\ forall i v,
             nth_error
               (rows (mk_ndarray [2; 4] [0.75; 0.25; 0.25; 0.5; 7; 0; 0; 0]%float)) i
             = Some v ->
             exists w, Prismatic_to_RGB (vector v) = Ok (vector w)
                       /\ nth_error (rows out) i = Some w).
Proof.
  split.
  - apply (proj1 (batch_invariance
                    (mk_ndarray [2; 3] [0.25; 0.5; 0.75; 0; 0; 0]%float) [2] eq_refl)).
    reflexivity.
  - apply (proj2 (batch_invariance
                    (mk_ndarray [2; 4] [0.75; 0.25; 0.25; 0.5; 7; 0; 0; 0]%float)
                    [2] eq_refl)).
    reflexivity.
Defined.

(** ** Further properties *)

(** The shape contract: a well-formed batch of RGB vectors is mapped to a
    well-formed batch of Prismatic vectors with the same leading axes, and
    back. *)
Theorem shape_contract {A : Type} {SA : Scalar A} (a : ndarray A) (lead : list nat) :
  wf a ->
  (shape a = lead ++ [3] ->
   exists out, RGB_to_Prismatic a = Ok out /\ shape out = lead ++ [4] /\ wf out)
  /\ (shape a = lead ++ [4] ->
      exists out, Prismatic_to_RGB a = Ok out /\ shape out = lead ++ [3] /\ wf out).
Proof.
  intros W. split; intros E.
  - pose proof (rows_row_length a lead 3 W E) as Hlen.
    pose proof (rows_length a lead 3 E) as Hn.
    rewrite (RGB_to_Prismatic_rows a lead W E).
    eexists. split; [reflexivity|]. split; [reflexivity|].
    unfold wf. simpl. rewrite size_of_app, (concat_length_const _ 4).
    + now rewrite length_map, Hn.
    + apply Forall_map. eapply Forall_impl; [|exact Hlen].
      intros r Hr. cbv beta in *. now rewrite RGB_to_Prismatic_row_length, Hr.
  - pose proof (rows_row_length a lead 4 W E) as Hlen.
    pose proof (rows_length a lead 4 E) as Hn.
    rewrite (Prismatic_to_RGB_rows a lead 4 W E) by lia.
    eexists. split; [reflexivity|]. split; [reflexivity|].
    unfold wf. simpl. rewrite size_of_app, (concat_length_const _ 3).
    + now rewrite length_map, Hn.
    + apply Forall_map. eapply Forall_impl; [|exact Hlen].
      intros r Hr. cbv beta in *. now rewrite Prismatic_to_RGB_row_length, Hr.
Qed.

Lemma shape_contract_witness :
  (exists out,
     RGB_to_Prismatic (mk_ndarray [2; 1; 3] [0.25; 0.5; 0.75; 0; 0; 0]%float) = Ok out
     /\ shape out = [2; 1; 4] /\ wf out)
  /\ (exists out,
        Prismatic_to_RGB (mk_ndarray [1; 4] [0.75; 0.25; 0.25; 0.5]%float) = Ok out
        /\ shape out = [1; 3] /\ wf out).
Proof.
  split.
  - apply (proj1 (shape_contract
                    (mk_ndarray [2; 1; 3] [0.25; 0.5; 0.75; 0; 0; 0]%float)
                    [2; 1] eq_refl)).
    reflexivity.
  - apply (proj2 (shape_contract
                    (mk_ndarray [1; 4] [0.75; 0.25; 0.25; 0.5]%float) [1] eq_refl)).
    reflexivity.
Defined.

(** In binary64 the guard covers an exactly zero sum only: the reciprocal of
    a subnormal sum overflows to infinity, and the products with the zero
    components are [nan], on a finite, non-negative input. *)
Theorem binary64_subnormal_sum :
  RGB_to_Prismatic (vector [5e-324; 0; 0]%float)
  = Ok (vector [5e-324; infinity; nan; nan]%float).
Proof. vm_compute. reflexivity. Qed.

Local Open Scope Qc_scope.

Lemma max_pos_of_sum_pos (R G B M : Qc) :
  is_max M [R; G; B] -> 0 < R + G + B -> 0 < M.
Proof.
  intros [_ Hle] Hs.
  destruct (Qclt_le_dec 0 M) as [H|H]; [exact H|exfalso].
  inversion_clear Hle as [|? ? H1 Hle']. inversion_clear Hle' as [|? ? H2 Hle''].
  inversion_clear Hle'' as [|? ? H3 _].
  apply (Qclt_not_le _ _ Hs).
  replace 0 with (0 + 0 + 0) by (apply Qc_is_canon; reflexivity).
  repeat apply Qcplus_le_compat; eauto using Qcle_trans.
Qed.

Lemma round_trip_valid_row (r : list xnum) :
  valid_rgb r -> Prismatic_to_RGB_row (RGB_to_Prismatic_row r) = r.
Proof.
  intros (R & G & B & -> & _ & _ & _ & Hs).
  pose proof (qmax3_is_max R G B) as HM.
  exact (round_trip_row R G B _ HM (max_pos_of_sum_pos R G B _ HM Hs) Hs).
Qed.

(** The round trip on whole arrays: a well-formed batch of non-negative RGB
    vectors of positive sum is returned as it was given. *)
Theorem batch_round_trip (a : ndarray xnum) (lead : list nat) :
  wf a -> shape a = (lead ++ [3])%nat -> Forall valid_rgb (rows a) ->
  (p <- RGB_to_Prismatic a ;; Prismatic_to_RGB p) = Ok a.
Proof.
  intros W E Hv.
  pose proof (rows_row_length a lead 3%nat W E) as Hlen.
  pose proof (rows_length a lead 3%nat E) as Hn.
  rewrite (RGB_to_Prismatic_rows a lead W E). simpl bind.
  set (out := {| shape := (lead ++ [4])%nat;
                 data := concat (map RGB_to_Prismatic_row (rows a)) |}).
  assert (Hrows : rows out = map RGB_to_Prismatic_row (rows a)).
  { apply rows_of_mapped; [exact Hn|].
    eapply Forall_impl; [|exact Hlen].
    intros r Hr. cbv beta in *. now rewrite RGB_to_Prismatic_row_length, Hr. }
  assert (Wout : wf out).
  { unfold wf, out. simpl. rewrite size_of_app, (concat_length_const _ 4%nat).
    - now rewrite length_map, Hn.
    - rewrite <- Hrows. unfold out. rewrite (rows_of_mapped _ _ lead 4%nat Hn).
      + apply Forall_map. eapply Forall_impl; [|exact Hlen].
        intros r Hr. cbv beta in *. now rewrite RGB_to_Prismatic_row_length, Hr.
      + eapply Forall_impl; [|exact Hlen].
        intros r Hr. cbv beta in *. now rewrite RGB_to_Prismatic_row_length, Hr. }
  rewrite (Prismatic_to_RGB_rows out lead 4%nat Wout eq_refl) by lia.
  rewrite Hrows, map_map.
  replace (map (fun r => Prismatic_to_RGB_row (RGB_to_Prismatic_row r)) (rows a))
    with (rows a).
  2:{ rewrite <- (map_id (rows a)) at 1. apply map_ext_in.
      intros r Hr. symmetry. apply round_trip_valid_row.
      rewrite Forall_forall in Hv. now apply Hv. }
  rewrite (rows_shape a lead 3%nat E), concat_chunks.
  - destruct a as [sh d]. simpl in *. now subst sh.
  - unfold wf in W. now rewrite W, E, size_of_app.
Qed.

Lemma batch_round_trip_witness :
  let a := mk_ndarray [2; 3]%nat
             [Fin (qc 1 4); Fin (qc 1 2); Fin (qc 3 4);
              Fin (qc 1 1); Fin (qc 0 1); Fin (qc 0 1)] in
  (wf a /\ shape a = ([2] ++ [3])%nat /\ Forall valid_rgb (rows a))
  /\ (p <- RGB_to_Prismatic a ;; Prismatic_to_RGB p) = Ok a.
Proof.
  intros a.
  assert (H1 : wf a) by reflexivity.
  assert (H2 : shape a = ([2] ++ [3])%nat) by reflexivity.
  assert (H3 : Forall valid_rgb (rows a)).
  { repeat constructor.
    - exists (qc 1 4), (qc 1 2), (qc 3 4). split; [reflexivity|].
      repeat split; vm_compute; discriminate || reflexivity.
    - exists (qc 1 1), (qc 0 1), (qc 0 1). split; [reflexivity|].
      repeat split; vm_compute; discriminate || reflexivity. }
  split; [tauto|].
  exact (batch_round_trip a [2%nat] H1 H2 H3).
Defined.

Local Close Scope Qc_scope.

(** ** More on the two transforms, in exact arithmetic *)

Local Open Scope Qc_scope.

Lemma is_max_bounds3 (M a b c : Qc) :
  is_max M [a; b; c] -> a <= M /\ b <= M /\ c <= M.
Proof.
  intros [_ Hle].
  inversion_clear Hle as [|? ? H1 Hle']. inversion_clear Hle' as [|? ? H2 Hle''].
  inversion_clear Hle'' as [|? ? H3 _]. auto.
Qed.

Lemma Qcmult_nonneg a b : 0 <= a -> 0 <= b -> 0 <= a * b.
Proof.
  intros Ha Hb. rewrite <- (Qcmult_0_l b). now apply Qcmult_le_compat_r.
Qed.

Lemma Qcmult_pos a b : 0 < a -> 0 < b -> 0 < a * b.
Proof.
  intros Ha Hb. rewrite <- (Qcmult_0_l b). now apply Qcmult_lt_compat_r.
Qed.

Lemma Qcdiv_pos a s : 0 < a -> 0 < s -> 0 < a / s.
Proof. intros Ha Hs. apply Qcmult_pos; [exact Ha | now apply Qcinv_pos]. Qed.

Lemma Qcplus_nonneg a b : 0 <= a -> 0 <= b -> 0 <= a + b.
Proof.
  intros Ha Hb. rewrite <- (Qcplus_0_l 0). now apply Qcplus_le_compat.
Qed.

(** The largest of three non-negative numbers of sum 1 is positive. *)
Lemma simplex_max_pos (m rho gamma beta : Qc) :
  0 <= rho -> 0 <= gamma -> 0 <= beta -> rho + gamma + beta = 1 ->
  is_max m [rho; gamma; beta] -> 0 < m.
Proof.
  intros Hr Hg Hb Hsum Hmax.
  destruct (is_max_bounds3 _ _ _ _ Hmax) as (H1 & H2 & H3).
  destruct (Qclt_le_dec 0 m) as [H|H]; [exact H|exfalso].
  assert (rho = 0) by (apply Qcle_antisym; eauto using Qcle_trans).
  assert (gamma = 0) by (apply Qcle_antisym; eauto using Qcle_trans).
  assert (beta = 0) by (apply Qcle_antisym; eauto using Qcle_trans).
  subst rho gamma beta. rewrite !Qcplus_0_l in Hsum.
  exact (Q_apart_0_1 (eq_sym Hsum)).
Qed.

(** Encoding after decoding: on a Prismatic vector with positive luminance
    and chromaticity on the simplex, [RGB_to_Prismatic] undoes
    [Prismatic_to_RGB]. *)
Theorem Prismatic_decode_encode (L rho gamma beta : Qc) :
  0 < L -> 0 <= rho -> 0 <= gamma -> 0 <= beta ->
  rho + gamma + beta = 1 ->
  (rgb <- Prismatic_to_RGB (vector [Fin L; Fin rho; Fin gamma; Fin beta]) ;;
   RGB_to_Prismatic rgb)
  = Ok (vector [Fin L; Fin rho; Fin gamma; Fin beta]).
Proof.
  intros HL Hr Hg Hb Hsum.
  rewrite Prismatic_to_RGB_Fin. simpl bind.
  set (m := qmax (qmax rho gamma) beta).
  pose proof (qmax3_is_max rho gamma beta) as Hmax. fold m in Hmax.
  pose proof (simplex_max_pos m rho gamma beta Hr Hg Hb Hsum Hmax) as Hm.
  pose proof (Qclt_neq_0 _ Hm) as Hm0.
  pose proof (Qclt_neq_0 _ HL) as HL0.
  rewrite (qguard_nonzero _ _ Hm0).
  set (q := L / m).
  assert (Hq : 0 < q) by (now apply Qcdiv_pos).
  pose proof (Qclt_neq_0 _ Hq) as Hq0.
  rewrite RGB_to_Prismatic_Fin.
  assert (Hs : q * rho + q * gamma + q * beta = q).
  { transitivity (q * (rho + gamma + beta)); [ring|]. rewrite Hsum. ring. }
  rewrite Hs, (qguard_nonzero _ _ Hq0).
  assert (HLm : qmax (qmax (q * rho) (q * gamma)) (q * beta) = L).
  { eapply is_max_unique; [apply qmax3_is_max|].
    replace L with (q * m) by (unfold q; field; exact Hm0).
    apply (is_max_scale q m [rho; gamma; beta]);
      [now apply Qclt_le_weak | exact Hmax]. }
  rewrite HLm.
  assert (Hx : forall x, 1 / q * (q * x) = x) by (intros x; field; exact Hq0).
  now rewrite !Hx.
Qed.

Lemma Prismatic_decode_encode_witness :
  (0 < qc 3 4 /\ 0 <= qc 1 6 /\ 0 <= qc 1 3 /\ 0 <= qc 1 2
   /\ qc 1 6 + qc 1 3 + qc 1 2 = 1)
  /\ (rgb <- Prismatic_to_RGB
               (vector [Fin (qc 3 4); Fin (qc 1 6); Fin (qc 1 3); Fin (qc 1 2)]) ;;
      RGB_to_Prismatic rgb)
     = Ok (vector [Fin (qc 3 4); Fin (qc 1 6); Fin (qc 1 3); Fin (qc 1 2)]).
Proof.
  assert (H1 : 0 < qc 3 4) by reflexivity.
  assert (H2 : 0 <= qc 1 6) by (vm_compute; discriminate).
  assert (H3 : 0 <= qc 1 3) by (vm_compute; discriminate).
  assert (H4 : 0 <= qc 1 2) by (vm_compute; discriminate).
  assert (H5 : qc 1 6 + qc 1 3 + qc 1 2 = 1) by (apply Qc_is_canon; reflexivity).
  split; [tauto|].
  exact (Prismatic_decode_encode (qc 3 4) (qc 1 6) (qc 1 3) (qc 1 2)
           H1 H2 H3 H4 H5).
Defined.

Lemma qguard_recip_scale (k s x : Qc) :
  k <> 0 -> qguard (1 / (k * s)) (k * s) * (k * x) = qguard (1 / s) s * x.
Proof.
  intros Hk. destruct (Qc_eq_dec s 0) as [->|Hs].
  - rewrite Qcmult_0_r, !qguard_zero. ring.
  - rewrite !qguard_nonzero; try assumption.
    + field. split; assumption.
    + intros E. apply Qcmult_integral in E as [E|E]; contradiction.
Qed.

Lemma qguard_quot_scale (k t L m x : Qc) :
  t <> 0 ->
  qguard (k * L / (t * m)) (t * m) * (t * x) = k * (qguard (L / m) m * x).
Proof.
  intros Ht. destruct (Qc_eq_dec m 0) as [->|Hm].
  - rewrite Qcmult_0_r, !qguard_zero. ring.
  - rewrite !qguard_nonzero; try assumption.
    + field. split; assumption.
    + intros E. apply Qcmult_integral in E as [E|E]; contradiction.
Qed.

Lemma qmax3_scale (k a b c : Qc) :
  0 <= k ->
  qmax (qmax (k * a) (k * b)) (k * c) = k * qmax (qmax a b) c.
Proof.
  intros Hk. eapply is_max_unique; [apply qmax3_is_max|].
  apply (is_max_scale k _ [a; b; c]); [exact Hk | apply qmax3_is_max].
Qed.

Lemma vector4_inj (a b c d a' b' c' d' : Qc) :
  Ok (vector [Fin a; Fin b; Fin c; Fin d])
  = Ok (vector [Fin a'; Fin b'; Fin c'; Fin d']) ->
  a = a' /\ b = b' /\ c = c' /\ d = d'.
Proof. intros H. injection H as -> -> -> ->. auto. Qed.

Lemma vector3_inj (a b c a' b' c' : Qc) :
  Ok (vector [Fin a; Fin b; Fin c]) = Ok (vector [Fin a'; Fin b'; Fin c']) ->
  a = a' /\ b = b' /\ c = c'.
Proof. intros H. injection H as -> -> ->. auto. Qed.

(** Brightness and chromaticity are separated: multiplying an RGB vector by
    a positive factor multiplies the luminance by it and leaves the three
    chromaticity components as they are. *)
Theorem RGB_to_Prismatic_scale (k R G B L rho gamma beta : Qc) :
  0 < k ->
  RGB_to_Prismatic (vector [Fin R; Fin G; Fin B])
  = Ok (vector [Fin L; Fin rho; Fin gamma; Fin beta]) ->
  RGB_to_Prismatic (vector [Fin (k * R); Fin (k * G); Fin (k * B)])
  = Ok (vector [Fin (k * L); Fin rho; Fin gamma; Fin beta]).
Proof.
  intros Hk H. rewrite RGB_to_Prismatic_Fin in H.
  apply vector4_inj in H as (<- & <- & <- & <-).
  rewrite RGB_to_Prismatic_Fin.
  pose proof (Qclt_neq_0 _ Hk) as Hk0.
  replace (k * R + k * G + k * B) with (k * (R + G + B)) by ring.
  rewrite !(qguard_recip_scale k (R + G + B)) by exact Hk0.
  now rewrite qmax3_scale by (now apply Qclt_le_weak).
Qed.

Lemma RGB_to_Prismatic_scale_witness :
  (0 < qc 2 1
   /\ RGB_to_Prismatic (vector [Fin (qc 1 4); Fin (qc 1 2); Fin (qc 3 4)])
      = Ok (vector [Fin (qc 3 4); Fin (qc 1 6); Fin (qc 1 3); Fin (qc 1 2)]))
  /\ RGB_to_Prismatic
       (vector [Fin (qc 2 1 * qc 1 4); Fin (qc 2 1 * qc 1 2); Fin (qc 2 1 * qc 3 4)])
     = Ok (vector [Fin (qc 2 1 * qc 3 4); Fin (qc 1 6); Fin (qc 1 3); Fin (qc 1 2)]).
Proof.
  assert (H1 : 0 < qc 2 1) by reflexivity.
  assert (H2 : RGB_to_Prismatic (vector [Fin (qc 1 4); Fin (qc 1 2); Fin (qc 3 4)])
               = Ok (vector [Fin (qc 3 4); Fin (qc 1 6); Fin (qc 1 3); Fin (qc 1 2)]))
    by (apply result_same_eq; vm_compute; reflexivity).
  split; [tauto|].
  exact (RGB_to_Prismatic_scale (qc 2 1) (qc 1 4) (qc 1 2) (qc 3 4)
           (qc 3 4) (qc 1 6) (qc 1 3) (qc 1 2) H1 H2).
Defined.

(** [Prismatic_to_RGB] is linear in the luminance and reads the chromaticity
    up to a positive factor only: scaling [L] by any [k] scales the result by
    [k], and scaling the three chromaticity components by [t > 0] changes
    nothing. *)
Theorem Prismatic_to_RGB_scale (k t L rho gamma beta R G B : Qc) :
  0 < t ->
  Prismatic_to_RGB (vector [Fin L; Fin rho; Fin gamma; Fin beta])
  = Ok (vector [Fin R; Fin G; Fin B]) ->
  Prismatic_to_RGB
    (vector [Fin (k * L); Fin (t * rho); Fin (t * gamma); Fin (t * beta)])
  = Ok (vector [Fin (k * R); Fin (k * G); Fin (k * B)]).
Proof.
  intros Ht H. rewrite Prismatic_to_RGB_Fin in H.
  apply vector3_inj in H as (<- & <- & <-).
  rewrite Prismatic_to_RGB_Fin.
  pose proof (Qclt_neq_0 _ Ht) as Ht0.
  rewrite qmax3_scale by (now apply Qclt_le_weak).
  now rewrite !qguard_quot_scale by exact Ht0.
Qed.

Lemma Prismatic_to_RGB_scale_witness :
  (0 < qc 3 1
   /\ Prismatic_to_RGB
        (vector [Fin (qc 3 4); Fin (qc 1 6); Fin (qc 1 3); Fin (qc 1 2)])
      = Ok (vector [Fin (qc 1 4); Fin (qc 1 2); Fin (qc 3 4)]))
  /\ Prismatic_to_RGB
       (vector [Fin (qc (-2) 1 * qc 3 4); Fin (qc 3 1 * qc 1 6);
                Fin (qc 3 1 * qc 1 3); Fin (qc 3 1 * qc 1 2)])
     = Ok (vector [Fin (qc (-2) 1 * qc 1 4); Fin (qc (-2) 1 * qc 1 2);
                   Fin (qc (-2) 1 * qc 3 4)]).
Proof.
  assert (H1 : 0 < qc 3 1) by reflexivity.
  assert (H2 : Prismatic_to_RGB
                 (vector [Fin (qc 3 4); Fin (qc 1 6); Fin (qc 1 3); Fin (qc 1 2)])
               = Ok (vector [Fin (qc 1 4); Fin (qc 1 2); Fin (qc 3 4)]))
    by (apply result_same_eq; vm_compute; reflexivity).
  split; [tauto|].
  exact (Prismatic_to_RGB_scale (qc (-2) 1) (qc 3 1) (qc 3 4) (qc 1 6) (qc 1 3)
           (qc 1 2) (qc 1 4) (qc 1 2) (qc 3 4) H1 H2).
Defined.

Lemma Qcle_plus_nonneg_r (a b : Qc) : 0 <= b -> a <= a + b.
Proof.
  intros Hb. rewrite <- (Qcplus_0_r a) at 1.
  apply Qcplus_le_compat; [apply Qcle_refl | exact Hb].
Qed.

Lemma Qcle_plus_nonneg_l (a b : Qc) : 0 <= b -> a <= b + a.
Proof. intros Hb. rewrite Qcplus_comm. now apply Qcle_plus_nonneg_r. Qed.

(** A non-negative share of a positive total lies between 0 and 1. *)
Lemma share_bounds (s x : Qc) :
  0 < s -> 0 <= x -> x <= s -> 0 <= 1 / s * x <= 1.
Proof.
  intros Hs Hx Hxs.
  assert (Hc : 0 <= 1 / s).
  { apply Qcdiv_nonneg; [vm_compute; discriminate | exact Hs]. }
  split.
  - now apply Qcmult_nonneg.
  - replace 1 with (1 / s * s) at 2 by (field; now apply Qclt_neq_0).
    now apply Qcmult_le_compat_l.
Qed.

(** On non-negative RGB vectors of positive sum every chromaticity component
    returned by [RGB_to_Prismatic] lies between 0 and 1. *)
Theorem chromaticity_bounds (R G B : Qc) :
  0 <= R -> 0 <= G -> 0 <= B -> 0 < R + G + B ->
  exists L rho gamma beta : Qc,
    RGB_to_Prismatic (vector [Fin R; Fin G; Fin B])
    = Ok (vector [Fin L; Fin rho; Fin gamma; Fin beta])
    /\ 0 <= rho <= 1 /\ 0 <= gamma <= 1 /\ 0 <= beta <= 1.
Proof.
  intros HR HG HB Hs.
  rewrite RGB_to_Prismatic_Fin, (qguard_nonzero _ _ (Qclt_neq_0 _ Hs)).
  assert (HRs : R <= R + G + B).
  { rewrite <- Qcplus_assoc. apply Qcle_plus_nonneg_r. now apply Qcplus_nonneg. }
  assert (HGs : G <= R + G + B).
  { apply Qcle_trans with (R + G);
      [now apply Qcle_plus_nonneg_l | now apply Qcle_plus_nonneg_r]. }
  assert (HBs : B <= R + G + B).
  { now apply Qcle_plus_nonneg_l, Qcplus_nonneg. }
  do 4 eexists. split; [reflexivity|].
  split; [|split]; now apply share_bounds.
Qed.

Lemma chromaticity_bounds_witness :
  (0 <= qc 1 4 /\ 0 <= qc 0 1 /\ 0 <= qc 3 4 /\ 0 < qc 1 4 + qc 0 1 + qc 3 4)
  /\ exists L rho gamma beta : Qc,
       RGB_to_Prismatic (vector [Fin (qc 1 4); Fin (qc 0 1); Fin (qc 3 4)])
       = Ok (vector [Fin L; Fin rho; Fin gamma; Fin beta])
       /\ 0 <= rho <= 1 /\ 0 <= gamma <= 1 /\ 0 <= beta <= 1.
Proof.
  assert (H1 : 0 <= qc 1 4) by (vm_compute; discriminate).
  assert (H2 : 0 <= qc 0 1) by (vm_compute; discriminate).
  assert (H3 : 0 <= qc 3 4) by (vm_compute; discriminate).
  assert (H4 : 0 < qc 1 4 + qc 0 1 + qc 3 4) by reflexivity.
  split; [tauto|].
  exact (chromaticity_bounds (qc 1 4) (qc 0 1) (qc 3 4) H1 H2 H3 H4).
Defined.

(** A non-negative multiple of a part of [m], scaled so that [m] becomes [L]. *)
Lemma part_bounds (L m x : Qc) :
  0 <= L -> 0 <= x -> x <= m -> 0 <= qguard (L / m) m * x <= L.
Proof.
  intros HL Hx Hxm. destruct (Qc_eq_dec m 0) as [->|Hm0].
  - rewrite qguard_zero, Qcmult_0_l. split; [apply Qcle_refl | exact HL].
  - rewrite (qguard_nonzero _ _ Hm0).
    assert (Hm : 0 < m).
    { destruct (Qcle_lt_or_eq _ _ (Qcle_trans _ _ _ Hx Hxm)) as [H|H];
        [exact H | now destruct Hm0]. }
    assert (Hq : 0 <= L / m) by (now apply Qcdiv_nonneg).
    split.
    + now apply Qcmult_nonneg.
    + replace L with (L / m * m) at 2 by (field; exact Hm0).
      now apply Qcmult_le_compat_l.
Qed.

(** The reconstructed RGB stays in the box [[0, L]]: for a non-negative
    luminance and non-negative chromaticity components, degenerate or not,
    every component returned by [Prismatic_to_RGB] lies between 0 and [L]. *)
Theorem Prismatic_to_RGB_bounds (L rho gamma beta : Qc) :
  0 <= L -> 0 <= rho -> 0 <= gamma -> 0 <= beta ->
  exists R G B : Qc,
    Prismatic_to_RGB (vector [Fin L; Fin rho; Fin gamma; Fin beta])
    = Ok (vector [Fin R; Fin G; Fin B])
    /\ 0 <= R <= L /\ 0 <= G <= L /\ 0 <= B <= L.
Proof.
  intros HL Hr Hg Hb.
  rewrite Prismatic_to_RGB_Fin.
  destruct (is_max_bounds3 _ _ _ _ (qmax3_is_max rho gamma beta)) as (H1 & H2 & H3).
  do 3 eexists. split; [reflexivity|].
  split; [|split]; now apply part_bounds.
Qed.

Lemma Prismatic_to_RGB_bounds_witness :
  (0 <= qc 3 4 /\ 0 <= qc 1 6 /\ 0 <= qc 0 1 /\ 0 <= qc 1 2)
  /\ exists R G B : Qc,
       Prismatic_to_RGB
         (vector [Fin (qc 3 4); Fin (qc 1 6); Fin (qc 0 1); Fin (qc 1 2)])
       = Ok (vector [Fin R; Fin G; Fin B])
       /\ 0 <= R <= qc 3 4 /\ 0 <= G <= qc 3 4 /\ 0 <= B <= qc 3 4.
Proof.
  assert (H1 : 0 <= qc 3 4) by (vm_compute; discriminate).
  assert (H2 : 0 <= qc 1 6) by (vm_compute; discriminate).
  assert (H3 : 0 <= qc 0 1) by (vm_compute; discriminate).
  assert (H4 : 0 <= qc 1 2) by (vm_compute; discriminate).
  split; [tauto|].
  exact (Prismatic_to_RGB_bounds (qc 3 4) (qc 1 6) (qc 0 1) (qc 1 2) H1 H2 H3 H4).
Defined.

Lemma Qcmult_le_compat_neg_l (c x y : Qc) : c <= 0 -> x <= y -> c * y <= c * x.
Proof.
  intros Hc Hxy.
  assert (Hc' : 0 <= - c).
  { apply Qcopp_le_compat in Hc. now replace (- 0) with 0 in Hc by ring. }
  pose proof (Qcmult_le_compat_l (- c) x y Hc' Hxy) as H.
  apply Qcopp_le_compat in H.
  replace (- (- c * y)) with (c * y) in H by ring.
  now replace (- (- c * x)) with (c * x) in H by ring.
Qed.

Lemma is_min_scale_neg (c m : Qc) (l : list Qc) :
  c <= 0 -> is_min m l -> is_max (c * m) (map (Qcmult c) l).
Proof.
  intros Hc [I B]. split.
  - now apply in_map.
  - apply Forall_map. eapply Forall_impl; [|exact B].
    intros x Hx. now apply Qcmult_le_compat_neg_l.
Qed.

Lemma recip_neg (s : Qc) : s < 0 -> 1 / s <= 0 /\ 1 / s <> 0.
Proof.
  intros Hs.
  assert (Hs0 : s <> 0) by (intros E; rewrite E in Hs; exact (Qclt_not_eq _ _ Hs eq_refl)).
  assert (H1 : s * (1 / s) = 1) by (field; exact Hs0).
  split.
  - destruct (Qclt_le_dec 0 (1 / s)) as [H|H]; [exfalso | exact H].
    pose proof (Qcmult_lt_compat_r _ _ _ H Hs) as H2.
    rewrite Qcmult_0_l, H1 in H2. discriminate H2.
  - intros E. rewrite E, Qcmult_0_r in H1. exact (Q_apart_0_1 (eq_sym H1)).
Qed.

Lemma min_neg_of_sum_neg (R G B mn : Qc) :
  is_min mn [R; G; B] -> R + G + B < 0 -> mn < 0.
Proof.
  intros [_ Hle] Hs.
  inversion_clear Hle as [|? ? H1 Hle']. inversion_clear Hle' as [|? ? H2 Hle''].
  inversion_clear Hle'' as [|? ? H3 _].
  destruct (Qclt_le_dec mn 0) as [H|H]; [exact H|exfalso].
  apply (Qcle_not_lt _ _ (Qcplus_nonneg _ _ (Qcplus_nonneg _ _
           (Qcle_trans _ _ _ H H1) (Qcle_trans _ _ _ H H2))
           (Qcle_trans _ _ _ H H3))).
  exact Hs.
Qed.

(** Off its domain the round trip is lossy in a definite way.  When the
    components sum to zero the vector comes back as the zero vector; when
    the sum is negative it comes back multiplied by [max / min] of its
    components. *)
Theorem round_trip_nonpositive_sum (R G B M mn : Qc) :
  is_max M [R; G; B] -> is_min mn [R; G; B] ->
  (R + G + B = 0 ->
   (p <- RGB_to_Prismatic (vector [Fin R; Fin G; Fin B]) ;; Prismatic_to_RGB p)
   = Ok (vector [Fin 0; Fin 0; Fin 0]))
  /\ (R + G + B < 0 ->
      (p <- RGB_to_Prismatic (vector [Fin R; Fin G; Fin B]) ;; Prismatic_to_RGB p)
      = Ok (vector [Fin (M / mn * R); Fin (M / mn * G); Fin (M / mn * B)])).
Proof.
  intros HM Hmn. split; intros Hs.
  - rewrite RGB_to_Prismatic_Fin, Hs, qguard_zero, !Qcmult_0_l. simpl bind.
    rewrite Prismatic_to_RGB_Fin.
    change (qmax (qmax 0 0) 0) with 0.
    now rewrite qguard_zero, !Qcmult_0_l.
  - assert (Hs0 : R + G + B <> 0)
      by (intros E; rewrite E in Hs; exact (Qclt_not_eq _ _ Hs eq_refl)).
    pose proof (min_neg_of_sum_neg R G B mn Hmn Hs) as Hneg.
    assert (Hmn0 : mn <> 0)
      by (intros E; rewrite E in Hneg; exact (Qclt_not_eq _ _ Hneg eq_refl)).
    destruct (recip_neg _ Hs) as [Hc Hc0].
    rewrite RGB_to_Prismatic_Fin, (qguard_nonzero _ _ Hs0). simpl bind.
    rewrite Prismatic_to_RGB_Fin.
    set (c := 1 / (R + G + B)) in *.
    rewrite (is_max_unique _ _ _ (qmax3_is_max R G B) HM).
    assert (Hm : qmax (qmax (c * R) (c * G)) (c * B) = c * mn).
    { eapply is_max_unique; [apply qmax3_is_max|].
      exact (is_min_scale_neg c mn [R; G; B] Hc Hmn). }
    rewrite Hm, qguard_nonzero.
    2:{ intros E. apply Qcmult_integral in E as [E|E]; contradiction. }
    assert (Hx : forall x, M / (c * mn) * (c * x) = M / mn * x).
    { intros x. field. split; assumption. }
    now rewrite !Hx.
Qed.

Lemma round_trip_nonpositive_sum_witness :
  (is_max (qc 1 1) [qc 1 1; qc (-1) 1; qc 0 1]
   /\ is_min (qc (-1) 1) [qc 1 1; qc (-1) 1; qc 0 1]
   /\ qc 1 1 + qc (-1) 1 + qc 0 1 = 0
   /\ is_max (qc (-1) 1) [qc (-1) 1; qc (-2) 1; qc (-3) 1]
   /\ is_min (qc (-3) 1) [qc (-1) 1; qc (-2) 1; qc (-3) 1]
   /\ qc (-1) 1 + qc (-2) 1 + qc (-3) 1 < 0)
  /\ (p <- RGB_to_Prismatic (vector [Fin (qc 1 1); Fin (qc (-1) 1); Fin (qc 0 1)]) ;;
      Prismatic_to_RGB p)
     = Ok (vector [Fin 0; Fin 0; Fin 0])
  /\ (p <- RGB_to_Prismatic
             (vector [Fin (qc (-1) 1); Fin (qc (-2) 1); Fin (qc (-3) 1)]) ;;
      Prismatic_to_RGB p)
     = Ok (vector [Fin (qc (-1) 1 / qc (-3) 1 * qc (-1) 1);
                   Fin (qc (-1) 1 / qc (-3) 1 * qc (-2) 1);
                   Fin (qc (-1) 1 / qc (-3) 1 * qc (-3) 1)]).
Proof.
  assert (H1 : is_max (qc 1 1) [qc 1 1; qc (-1) 1; qc 0 1]).
  { split; [simpl; tauto|]. repeat constructor; vm_compute; discriminate. }
  assert (H2 : is_min (qc (-1) 1) [qc 1 1; qc (-1) 1; qc 0 1]).
  { split; [simpl; tauto|]. repeat constructor; vm_compute; discriminate. }
  assert (H3 : qc 1 1 + qc (-1) 1 + qc 0 1 = 0) by (apply Qc_is_canon; reflexivity).
  assert (H4 : is_max (qc (-1) 1) [qc (-1) 1; qc (-2) 1; qc (-3) 1]).
  { split; [simpl; tauto|]. repeat constructor; vm_compute; discriminate. }
  assert (H5 : is_min (qc (-3) 1) [qc (-1) 1; qc (-2) 1; qc (-3) 1]).
  { split; [simpl; tauto|]. repeat constructor; vm_compute; discriminate. }
  assert (H6 : qc (-1) 1 + qc (-2) 1 + qc (-3) 1 < 0) by reflexivity.
  split; [tauto|]. split.
  - exact (proj1 (round_trip_nonpositive_sum _ _ _ _ _ H1 H2) H3).
  - exact (proj2 (round_trip_nonpositive_sum _ _ _ _ _ H4 H5) H6).
Defined.

(** ** Non-finite components *)

Lemma maximum_NaN_l (y : xnum) : maximum NaN y = NaN.
Proof. reflexivity. Qed.

Lemma maximum_NaN_r (x : xnum) : maximum x NaN = NaN.
Proof. destruct x; reflexivity. Qed.

Lemma fold_maximum_NaN (l : list xnum) : fold_left maximum l NaN = NaN.
Proof. induction l as [|y l IH]; simpl; [reflexivity | exact IH]. Qed.

Lemma reduce_max_NaN (l : list xnum) : In NaN l -> reduce_max l = NaN.
Proof.
  destruct l as [|x l]; [contradiction|]. simpl. revert x.
  induction l as [|y l IH]; intros x [Hx|Hin].
  - now subst.
  - contradiction.
  - subst x. simpl. apply fold_maximum_NaN.
  - simpl. destruct Hin as [Hy|Hin].
    + subst y. rewrite maximum_NaN_r. apply fold_maximum_NaN.
    + apply IH. now right.
Qed.

Lemma x_add_NaN_r (x : xnum) : x_add x NaN = NaN.
Proof. destruct x; reflexivity. Qed.

Lemma fold_add_NaN (l : list xnum) : fold_left x_add l NaN = NaN.
Proof. induction l as [|y l IH]; simpl; [reflexivity | exact IH]. Qed.

Lemma fold_add_In_NaN (l : list xnum) (x : xnum) :
  In NaN l -> fold_left x_add l x = NaN.
Proof.
  revert x. induction l as [|y l IH]; intros x Hin; [contradiction|].
  simpl. destruct Hin as [Hy|Hin].
  - subst y. rewrite x_add_NaN_r. apply fold_add_NaN.
  - now apply IH.
Qed.

Lemma x_div_NaN_r (x : xnum) : x_div x NaN = NaN.
Proof. destruct x; reflexivity. Qed.

Lemma map_mul_NaN (l : list xnum) : map (x_mul NaN) l = map (fun _ => NaN) l.
Proof. apply map_ext. reflexivity. Qed.

(** A [nan] component poisons the whole vector: if one of the three RGB
    components is [nan], all four components returned by
    [RGB_to_Prismatic] are [nan]; if one of the three chromaticity
    components is [nan], all three components returned by
    [Prismatic_to_RGB] are [nan], whatever the luminance.  The zero-division
    guards do not intercept it. *)
Theorem nan_propagates (x y z L : xnum) :
  In NaN [x; y; z] ->
  RGB_to_Prismatic (vector [x; y; z]) = Ok (vector [NaN; NaN; NaN; NaN])
  /\ Prismatic_to_RGB (vector [L; x; y; z]) = Ok (vector [NaN; NaN; NaN]).
Proof.
  intros Hin. split.
  - rewrite RGB_to_Prismatic_vector by reflexivity.
    unfold RGB_to_Prismatic_row, reduce_add.
    rewrite (reduce_max_NaN _ Hin).
    change (fold_left s_add [x; y; z] s_zero) with (fold_left x_add [x; y; z] (Fin 0)).
    rewrite (fold_add_In_NaN _ _ Hin).
    reflexivity.
  - rewrite Prismatic_to_RGB_vector by reflexivity.
    unfold Prismatic_to_RGB_row.
    rewrite (reduce_max_NaN _ Hin).
    change (s_div L NaN) with (x_div L NaN). rewrite x_div_NaN_r.
    reflexivity.
Qed.

Lemma nan_propagates_witness :
  In NaN [Fin (qc 1 4); NaN; Fin (qc 3 4)]
  /\ RGB_to_Prismatic (vector [Fin (qc 1 4); NaN; Fin (qc 3 4)])
     = Ok (vector [NaN; NaN; NaN; NaN])
  /\ Prismatic_to_RGB (vector [Fin (qc 0 1); Fin (qc 1 4); NaN; Fin (qc 3 4)])
     = Ok (vector [NaN; NaN; NaN]).
Proof.
  assert (H : In NaN [Fin (qc 1 4); NaN; Fin (qc 3 4)]) by (simpl; tauto).
  split; [exact H|].
  exact (nan_propagates (Fin (qc 1 4)) NaN (Fin (qc 3 4)) (Fin (qc 0 1)) H).
Defined.

Lemma maximum_Fin_PInf (a : Qc) : maximum (Fin a) PInf = PInf.
Proof. reflexivity. Qed.

Lemma maximum_PInf_Fin (a : Qc) : maximum PInf (Fin a) = PInf.
Proof. reflexivity. Qed.

(** An infinite component is not absorbed either: with one component
    [+inf] and the other two finite, [RGB_to_Prismatic] returns an infinite
    luminance, [nan] for the chromaticity of the infinite component (the
    reciprocal of the sum is 0, and [0 * inf] is [nan]) and 0 for the other
    two. *)
Theorem infinite_component (R G B : Qc) :
  RGB_to_Prismatic (vector [PInf; Fin G; Fin B])
  = Ok (vector [PInf; NaN; Fin 0; Fin 0])
  /\ RGB_to_Prismatic (vector [Fin R; PInf; Fin B])
     = Ok (vector [PInf; Fin 0; NaN; Fin 0])
  /\ RGB_to_Prismatic (vector [Fin R; Fin G; PInf])
     = Ok (vector [PInf; Fin 0; Fin 0; NaN]).
Proof.
  repeat split; rewrite RGB_to_Prismatic_vector by reflexivity;
    unfold RGB_to_Prismatic_row, reduce_add, reduce_max; simpl;
    rewrite ?maximum_Fin, ?maximum_Fin_PInf, ?maximum_PInf_Fin;
    unfold guarded; simpl; now rewrite !Qcmult_0_l.
Qed.

(** ** The saturation adjustment of the docstring *)

Lemma third_Fin :
  x_div (Fin (Q2Qc (inject_Z 1))) (Fin (Q2Qc (inject_Z 3))) = Fin (qc 1 3).
Proof. apply x_same_eq. vm_compute. reflexivity. Qed.

Lemma adjust_saturation_Fin (k L rho gamma beta : Qc) :
  adjust_saturation (Fin k) (vector [Fin L; Fin rho; Fin gamma; Fin beta])
  = Ok (vector [Fin L;
                Fin (qc 1 3 + k * (rho - qc 1 3));
                Fin (qc 1 3 + k * (gamma - qc 1 3));
                Fin (qc 1 3 + k * (beta - qc 1 3))]).
Proof.
  unfold adjust_saturation.
  change (s_div (s_of_Z 1) (s_of_Z 3))
    with (x_div (Fin (Q2Qc (inject_Z 1))) (Fin (Q2Qc (inject_Z 3)))).
  rewrite third_Fin. reflexivity.
Qed.

(** On the simplex the largest reconstructed component is the luminance. *)
Lemma simplex_luminance (L rho gamma beta : Qc) :
  0 <= L -> 0 <= rho -> 0 <= gamma -> 0 <= beta ->
  rho + gamma + beta = 1 ->
  exists R G B : Qc,
    Prismatic_to_RGB (vector [Fin L; Fin rho; Fin gamma; Fin beta])
    = Ok (vector [Fin R; Fin G; Fin B])
    /\ is_max L [R; G; B].
Proof.
  intros HL Hr Hg Hb Hsum.
  rewrite Prismatic_to_RGB_Fin.
  set (m := qmax (qmax rho gamma) beta).
  pose proof (qmax3_is_max rho gamma beta) as Hmax. fold m in Hmax.
  pose proof (simplex_max_pos m _ _ _ Hr Hg Hb Hsum Hmax) as Hm.
  pose proof (Qclt_neq_0 _ Hm) as Hm0.
  rewrite (qguard_nonzero _ _ Hm0).
  do 3 eexists. split; [reflexivity|].
  replace L with ((L / m) * m) at 1 by (field; exact Hm0).
  apply (is_max_scale (L / m) m [rho; gamma; beta]); [|exact Hmax].
  now apply Qcdiv_nonneg.
Qed.

(** Moving a share [x] towards the centroid by a factor between 0 and 1. *)
Lemma desaturated_nonneg (k x : Qc) :
  0 <= k -> k <= 1 -> 0 <= x -> 0 <= qc 1 3 + k * (x - qc 1 3).
Proof.
  intros Hk0 Hk1 Hx.
  replace (qc 1 3 + k * (x - qc 1 3)) with ((1 - k) * qc 1 3 + k * x) by ring.
  apply Qcplus_nonneg; apply Qcmult_nonneg; try assumption.
  - apply Qcle_minus_iff in Hk1. exact Hk1.
  - vm_compute; discriminate.
Qed.

Lemma desaturated_sum (k a b c : Qc) :
  a + b + c = 1 ->
  (qc 1 3 + k * (a - qc 1 3)) + (qc 1 3 + k * (b - qc 1 3))
  + (qc 1 3 + k * (c - qc 1 3)) = 1.
Proof.
  intros H.
  transitivity (qc 1 3 + qc 1 3 + qc 1 3
                + k * ((a + b + c) - (qc 1 3 + qc 1 3 + qc 1 3))); [ring|].
  rewrite H.
  replace (qc 1 3 + qc 1 3 + qc 1 3) with 1 by (apply Qc_is_canon; reflexivity).
  ring.
Qed.

(** The docstring's saturation adjustment keeps the luminance: for a
    saturation factor between 0 and 1 and a non-negative RGB vector of
    positive sum, converting, rescaling the chromaticity around 1/3 and
    converting back returns a vector with the same maximum as the input. *)
Theorem saturation_keeps_luminance (k R G B M : Qc) :
  0 <= k -> k <= 1 ->
  0 <= R -> 0 <= G -> 0 <= B -> 0 < R + G + B ->
  is_max M [R; G; B] ->
  exists R' G' B' : Qc,
    (Lrgb <- RGB_to_Prismatic (vector [Fin R; Fin G; Fin B]) ;;
     Lrgb <- adjust_saturation (Fin k) Lrgb ;;
     Prismatic_to_RGB Lrgb)
    = Ok (vector [Fin R'; Fin G'; Fin B'])
    /\ is_max M [R'; G'; B'].
Proof.
  intros Hk0 Hk1 HR HG HB Hs HM.
  pose proof (Qclt_neq_0 _ Hs) as Hs0.
  rewrite RGB_to_Prismatic_Fin, (qguard_nonzero _ _ Hs0). cbv [bind].
  rewrite (is_max_unique _ _ _ (qmax3_is_max R G B) HM).
  rewrite adjust_saturation_Fin.
  set (c := 1 / (R + G + B)).
  assert (Hc : 0 <= c).
  { apply Qcdiv_nonneg; [vm_compute; discriminate | exact Hs]. }
  apply simplex_luminance.
  - destruct (is_max_bounds3 _ _ _ _ HM) as (H1 & _). eauto using Qcle_trans.
  - apply desaturated_nonneg; try assumption. now apply Qcmult_nonneg.
  - apply desaturated_nonneg; try assumption. now apply Qcmult_nonneg.
  - apply desaturated_nonneg; try assumption. now apply Qcmult_nonneg.
  - apply desaturated_sum. unfold c. field. exact Hs0.
Qed.

Lemma saturation_keeps_luminance_witness :
  (0 <= qc 1 2 /\ qc 1 2 <= 1
   /\ 0 <= qc 1 4 /\ 0 <= qc 1 2 /\ 0 <= qc 3 4
   /\ 0 < qc 1 4 + qc 1 2 + qc 3 4
   /\ is_max (qc 3 4) [qc 1 4; qc 1 2; qc 3 4])
  /\ exists R' G' B' : Qc,
       (Lrgb <- RGB_to_Prismatic
                  (vector [Fin (qc 1 4); Fin (qc 1 2); Fin (qc 3 4)]) ;;
        Lrgb <- adjust_saturation (Fin (qc 1 2)) Lrgb ;;
        Prismatic_to_RGB Lrgb)
       = Ok (vector [Fin R'; Fin G'; Fin B'])
       /\ is_max (qc 3 4) [R'; G'; B'].
Proof.
  assert (H1 : 0 <= qc 1 2) by (vm_compute; discriminate).
  assert (H2 : qc 1 2 <= 1) by (vm_compute; discriminate).
  assert (H3 : 0 <= qc 1 4) by (vm_compute; discriminate).
  assert (H4 : 0 <= qc 3 4) by (vm_compute; discriminate).
  assert (H5 : 0 < qc 1 4 + qc 1 2 + qc 3 4) by reflexivity.
  assert (H6 : is_max (qc 3 4) [qc 1 4; qc 1 2; qc 3 4]).
  { split; [simpl; tauto|]. repeat constructor; vm_compute; discriminate. }
  split; [tauto|].
  exact (saturation_keeps_luminance (qc 1 2) (qc 1 4) (qc 1 2) (qc 3 4) (qc 3 4)
           H1 H2 H3 H1 H4 H5 H6).
Defined.

Lemma third_neq_0 : qc 1 3 <> 0.
Proof. apply Qclt_neq_0. reflexivity. Qed.

(** The two ends of the saturation scale.  With factor 1 the adjustment
    changes nothing and an RGB vector of positive sum comes back as it was;
    with factor 0 every vector becomes the grey of the same luminance,
    [(M, M, M)] with [M] the maximum of the components. *)
Theorem saturation_extremes (R G B M : Qc) :
  is_max M [R; G; B] ->
  (0 < R + G + B ->
   (Lrgb <- RGB_to_Prismatic (vector [Fin R; Fin G; Fin B]) ;;
    Lrgb <- adjust_saturation (Fin 1) Lrgb ;;
    Prismatic_to_RGB Lrgb)
   = Ok (vector [Fin R; Fin G; Fin B]))
  /\ (Lrgb <- RGB_to_Prismatic (vector [Fin R; Fin G; Fin B]) ;;
      Lrgb <- adjust_saturation (Fin 0) Lrgb ;;
      Prismatic_to_RGB Lrgb)
     = Ok (vector [Fin M; Fin M; Fin M]).
Proof.
  intros HM. split.
  - intros Hs.
    rewrite RGB_to_Prismatic_Fin. cbv [bind].
    rewrite adjust_saturation_Fin.
    assert (Hx : forall x : Qc, qc 1 3 + 1 * (x - qc 1 3) = x) by (intros x; ring).
    rewrite !Hx.
    pose proof (RGB_to_Prismatic_row_Fin R G B) as Hrow. cbv zeta in Hrow.
    unfold vector at 1. simpl length.
    change (Prismatic_to_RGB
              (vector [Fin (qmax (qmax R G) B);
                       Fin (qguard (1 / (R + G + B)) (R + G + B) * R);
                       Fin (qguard (1 / (R + G + B)) (R + G + B) * G);
                       Fin (qguard (1 / (R + G + B)) (R + G + B) * B)])
            = Ok (vector [Fin R; Fin G; Fin B])).
    rewrite <- Hrow.
    rewrite Prismatic_to_RGB_vector by (now rewrite RGB_to_Prismatic_row_length).
    now rewrite (round_trip_row R G B M HM (max_pos_of_sum_pos R G B M HM Hs) Hs).
  - rewrite RGB_to_Prismatic_Fin. cbv [bind].
    rewrite adjust_saturation_Fin.
    assert (Hx : forall x : Qc, qc 1 3 + 0 * (x - qc 1 3) = qc 1 3)
      by (intros x; ring).
    rewrite !Hx, Prismatic_to_RGB_Fin.
    change (qmax (qmax (qc 1 3) (qc 1 3)) (qc 1 3)) with (qc 1 3).
    rewrite (qguard_nonzero _ _ third_neq_0).
    rewrite (is_max_unique _ _ _ (qmax3_is_max R G B) HM).
    assert (HMt : M / qc 1 3 * qc 1 3 = M) by (field; exact third_neq_0).
    now rewrite HMt.
Qed.

Lemma saturation_extremes_witness :
  (is_max (qc 3 4) [qc 1 4; qc 1 2; qc 3 4] /\ 0 < qc 1 4 + qc 1 2 + qc 3 4)
  /\ (Lrgb <- RGB_to_Prismatic (vector [Fin (qc 1 4); Fin (qc 1 2); Fin (qc 3 4)]) ;;
      Lrgb <- adjust_saturation (Fin 1) Lrgb ;;
      Prismatic_to_RGB Lrgb)
     = Ok (vector [Fin (qc 1 4); Fin (qc 1 2); Fin (qc 3 4)])
  /\ (Lrgb <- RGB_to_Prismatic (vector [Fin (qc 1 4); Fin (qc 1 2); Fin (qc 3 4)]) ;;
      Lrgb <- adjust_saturation (Fin 0) Lrgb ;;
      Prismatic_to_RGB Lrgb)
     = Ok (vector [Fin (qc 3 4); Fin (qc 3 4); Fin (qc 3 4)]).
Proof.
  assert (H1 : is_max (qc 3 4) [qc 1 4; qc 1 2; qc 3 4]).
  { split; [simpl; tauto|]. repeat constructor; vm_compute; discriminate. }
  assert (H2 : 0 < qc 1 4 + qc 1 2 + qc 3 4) by reflexivity.
  split; [tauto|]. split.
  - exact (proj1 (saturation_extremes _ _ _ _ H1) H2).
  - exact (proj2 (saturation_extremes _ _ _ _ H1)).
Defined.

(** ** Greys and the symmetry of the channels *)

Lemma qmax_idem (a : Qc) : qmax a a = a.
Proof. destruct (qmax_cases a a) as [[_ H]|[_ H]]; exact H. Qed.

(** Greys sit at the centroid.  A vector with three equal non-zero
    components has chromaticity [(1/3, 1/3, 1/3)], and any three equal
    positive chromaticity components are decoded to the grey [(L, L, L)]. *)
Theorem achromatic (g L t : Qc) :
  (g <> 0 ->
   RGB_to_Prismatic (vector [Fin g; Fin g; Fin g])
   = Ok (vector [Fin g; Fin (qc 1 3); Fin (qc 1 3); Fin (qc 1 3)]))
  /\ (0 < t ->
      Prismatic_to_RGB (vector [Fin L; Fin t; Fin t; Fin t])
      = Ok (vector [Fin L; Fin L; Fin L])).
Proof.
  split.
  - intros Hg. rewrite RGB_to_Prismatic_Fin, !qmax_idem.
    assert (Hs : g + g + g <> 0).
    { replace (g + g + g) with ((1 + 1 + 1) * g) by ring.
      intros E. apply Qcmult_integral in E as [E|E]; [discriminate E | exact (Hg E)]. }
    rewrite (qguard_nonzero _ _ Hs).
    assert (H3 : 1 / (g + g + g) * g = qc 1 3).
    { transitivity (1 / (1 + 1 + 1)).
      - field. repeat split; try assumption; intros E; discriminate E.
      - apply Qc_is_canon. reflexivity. }
    now rewrite H3.
  - intros Ht. rewrite Prismatic_to_RGB_Fin, !qmax_idem.
    pose proof (Qclt_neq_0 _ Ht) as Ht0.
    rewrite (qguard_nonzero _ _ Ht0).
    assert (HL : L / t * t = L) by (field; exact Ht0).
    now rewrite HL.
Qed.

Lemma achromatic_witness :
  (qc 1 2 <> 0 /\ 0 < qc 1 5)
  /\ RGB_to_Prismatic (vector [Fin (qc 1 2); Fin (qc 1 2); Fin (qc 1 2)])
     = Ok (vector [Fin (qc 1 2); Fin (qc 1 3); Fin (qc 1 3); Fin (qc 1 3)])
  /\ Prismatic_to_RGB (vector [Fin (qc 7 1); Fin (qc 1 5); Fin (qc 1 5); Fin (qc 1 5)])
     = Ok (vector [Fin (qc 7 1); Fin (qc 7 1); Fin (qc 7 1)]).
Proof.
  assert (H1 : qc 1 2 <> 0) by (apply Qclt_neq_0; reflexivity).
  assert (H2 : 0 < qc 1 5) by reflexivity.
  split; [tauto|]. split.
  - exact (proj1 (achromatic (qc 1 2) (qc 7 1) (qc 1 5)) H1).
  - exact (proj2 (achromatic (qc 1 2) (qc 7 1) (qc 1 5)) H2).
Defined.

Lemma is_max_perm (m : Qc) (l l' : list Qc) :
  Permutation l l' -> is_max m l -> is_max m l'.
Proof.
  intros P [I B]. split.
  - eapply Permutation_in; eassumption.
  - eapply Permutation_Forall; eassumption.
Qed.

Lemma qsum_perm (l l' : list Qc) : Permutation l l' -> qsum l = qsum l'.
Proof.
  induction 1 as [|x l l' _ IH|x y l|l l' l'' _ IH1 _ IH2]; simpl.
  - reflexivity.
  - now rewrite IH.
  - fold (qsum l). ring.
  - now rewrite IH1.
Qed.

Lemma qsum3 (a b c : Qc) : a + b + c = qsum [a; b; c].
Proof. unfold qsum. simpl. ring. Qed.

(** The three channels are treated alike: the luminance and the factor by
    which the components are divided depend on the components only up to
    their order, so permuting the RGB components permutes the chromaticity
    components in the same way and leaves the luminance alone. *)
Theorem channel_symmetry (v v' : list Qc) :
  length v = 3%nat -> Permutation v v' ->
  exists L c : Qc,
    RGB_to_Prismatic (vector (map Fin v))
    = Ok (vector (Fin L :: map (fun x => Fin (c * x)) v))
    /\ RGB_to_Prismatic (vector (map Fin v'))
       = Ok (vector (Fin L :: map (fun x => Fin (c * x)) v')).
Proof.
  intros Hlen P.
  pose proof (Permutation_length P) as Hlen'. rewrite Hlen in Hlen'.
  destruct v as [|R [|G [|B [|]]]]; try discriminate.
  destruct v' as [|R' [|G' [|B' [|]]]]; try discriminate.
  simpl map. rewrite !RGB_to_Prismatic_Fin.
  exists (qmax (qmax R G) B), (qguard (1 / (R + G + B)) (R + G + B)).
  split; [reflexivity|].
  assert (HL : qmax (qmax R' G') B' = qmax (qmax R G) B).
  { eapply is_max_unique; [apply qmax3_is_max|].
    eapply is_max_perm; [exact P | apply qmax3_is_max]. }
  assert (Hs : R' + G' + B' = R + G + B).
  { rewrite !qsum3. symmetry. now apply qsum_perm. }
  now rewrite HL, Hs.
Qed.

Lemma channel_symmetry_witness :
  (length [qc 1 4; qc 1 2; qc 3 4] = 3%nat
   /\ Permutation [qc 1 4; qc 1 2; qc 3 4] [qc 3 4; qc 1 4; qc 1 2])
  /\ exists L c : Qc,
       RGB_to_Prismatic (vector (map Fin [qc 1 4; qc 1 2; qc 3 4]))
       = Ok (vector (Fin L :: map (fun x => Fin (c * x)) [qc 1 4; qc 1 2; qc 3 4]))
       /\ RGB_to_Prismatic (vector (map Fin [qc 3 4; qc 1 4; qc 1 2]))
          = Ok (vector (Fin L :: map (fun x => Fin (c * x)) [qc 3 4; qc 1 4; qc 1 2])).
Proof.
  assert (H1 : length [qc 1 4; qc 1 2; qc 3 4] = 3%nat) by reflexivity.
  assert (H2 : Permutation [qc 1 4; qc 1 2; qc 3 4] [qc 3 4; qc 1 4; qc 1 2]).
  { apply Permutation_sym.
    apply (Permutation_cons_app [qc 1 4; qc 1 2] [] (qc 3 4)).
    rewrite app_nil_r. apply Permutation_refl. }
  split; [tauto|].
  exact (channel_symmetry _ _ H1 H2).
Defined.

Local Close Scope Qc_scope.

(** ** Which exception, and the helpers of [colour.utilities] *)

Section Errors.
Context {A : Type} {SA : Scalar A}.

Lemma unpack3_seq_ValueError {T : Type} (f : nat -> T) k :
  k <> 3 -> unpack3 (map f (seq 0 k)) = Raise ValueError.
Proof.
  intros Hk. destruct k as [|[|[|[|k]]]]; simpl; try reflexivity.
  now destruct Hk.
Qed.

Lemma RGB_to_Prismatic_ValueError (a : ndarray A) lead k :
  shape a = lead ++ [k] -> k <> 3 -> RGB_to_Prismatic a = Raise ValueError.
Proof.
  intros E Hk.
  unfold RGB_to_Prismatic, np_max, np_sum, setitem_mask, bcast_col, tsplit.
  rewrite E, unsnoc_app.
  destruct (k =? 0) eqn:K; simpl; [reflexivity|].
  destruct (shape_eq_dec (lead ++ [1]) (lead ++ [1])) as [_|N]; [|now destruct N].
  simpl.
  destruct (shape_eq_dec (lead ++ [1]) (lead ++ [1])) as [_|N]; [|now destruct N].
  simpl. rewrite unsnoc_app. simpl.
  now rewrite unpack3_seq_ValueError.
Qed.

Lemma RGB_to_Prismatic_0d_ValueError (a : ndarray A) :
  shape a = [] -> RGB_to_Prismatic a = Raise ValueError.
Proof.
  destruct a as [sh d]. simpl. intros ->.
  unfold RGB_to_Prismatic, np_max, np_sum, setitem_mask, bcast_col, tsplit.
  simpl. destruct d as [|v [|w d]]; reflexivity.
Qed.

Lemma Prismatic_to_RGB_ValueError (a : ndarray A) lead k :
  shape a = lead ++ [k] -> k <= 1 -> Prismatic_to_RGB a = Raise ValueError.
Proof.
  intros E Hk. unfold Prismatic_to_RGB, getitem_last_from1.
  rewrite E, unsnoc_app. simpl. unfold np_max. simpl. rewrite unsnoc_app.
  now replace (k - 1) with 0 by lia.
Qed.

End Errors.

(** The exceptions by kind.  On an array with a trailing axis of length
    other than 3 [RGB_to_Prismatic] raises [ValueError] (from the empty
    reduction or from the unpacking), as it does on a 0-d array;
    [Prismatic_to_RGB] raises [ValueError] on a trailing axis of length 0 or
    1 (the empty reduction) and [IndexError] on a 0-d array (the slicing). *)
Theorem exceptions_by_kind {A : Type} {SA : Scalar A} (a : ndarray A) :
  (forall lead k,
      shape a = lead ++ [k] ->
      (k <> 3 -> RGB_to_Prismatic a = Raise ValueError)
      /\ (k <= 1 -> Prismatic_to_RGB a = Raise ValueError))
  /\ (shape a = [] ->
      RGB_to_Prismatic a = Raise ValueError
      /\ Prismatic_to_RGB a = Raise IndexError).
Proof.
  split.
  - intros lead k E. split; intros Hk.
    + now apply (RGB_to_Prismatic_ValueError a lead k).
    + now apply (Prismatic_to_RGB_ValueError a lead k).
  - intros E. split.
    + now apply RGB_to_Prismatic_0d_ValueError.
    + unfold Prismatic_to_RGB, getitem_last_from1. now rewrite E.
Qed.

Lemma exceptions_by_kind_witness :
  RGB_to_Prismatic (mk_ndarray [2; 2] [0.5; 0.25; 1; 0]%float) = Raise ValueError
  /\ Prismatic_to_RGB (mk_ndarray [3; 1] [0.5; 0.25; 1]%float) = Raise ValueError
  /\ RGB_to_Prismatic (mk_ndarray [] [0.5]%float) = Raise ValueError
  /\ Prismatic_to_RGB (mk_ndarray [] [0.5]%float) = Raise IndexError.
Proof.
  split; [|split; [|split]].
  - apply (proj1 (proj1 (exceptions_by_kind
                           (mk_ndarray [2; 2] [0.5; 0.25; 1; 0]%float))
                        [2] 2 eq_refl)).
    discriminate.
  - apply (proj2 (proj1 (exceptions_by_kind
                           (mk_ndarray [3; 1] [0.5; 0.25; 1]%float))
                        [3] 1 eq_refl)).
    lia.
  - exact (proj1 (proj2 (exceptions_by_kind (mk_ndarray [] [0.5]%float)) eq_refl)).
  - exact (proj2 (proj2 (exceptions_by_kind (mk_ndarray [] [0.5]%float)) eq_refl)).
Defined.

Section Transpose.
Context {A : Type}.
Implicit Types (r p : list A) (rs : list (list A)).









End Transpose.




Local Open Scope Qc_scope.

(** The guard of [Prismatic_to_RGB] is on the largest chromaticity
    component: whenever that maximum is 0, also with negative components
    beside it, the result is the zero vector whatever the luminance. *)
Theorem zero_maximum_chromaticity (L rho gamma beta : Qc) :
  is_max 0 [rho; gamma; beta] ->
  Prismatic_to_RGB (vector [Fin L; Fin rho; Fin gamma; Fin beta])
  = Ok (vector [Fin 0; Fin 0; Fin 0]).
Proof.
  intros Hmax. rewrite Prismatic_to_RGB_Fin.
  rewrite (is_max_unique _ _ _ (qmax3_is_max rho gamma beta) Hmax).
  now rewrite qguard_zero, !Qcmult_0_l.
Qed.

Lemma zero_maximum_chromaticity_witness :
  is_max 0 [qc (-1) 2; qc 0 1; qc (-3) 1]
  /\ Prismatic_to_RGB
       (vector [Fin (qc 5 1); Fin (qc (-1) 2); Fin (qc 0 1); Fin (qc (-3) 1)])
     = Ok (vector [Fin 0; Fin 0; Fin 0]).
Proof.
  assert (H : is_max 0 [qc (-1) 2; qc 0 1; qc (-3) 1]).
  { split.
    - right. left. apply Qc_is_canon. reflexivity.
    - repeat constructor; vm_compute; discriminate. }
  split; [exact H|].
  exact (zero_maximum_chromaticity (qc 5 1) _ _ _ H).
Defined.

Local Close Scope Qc_scope.
